(** * Instance helpers of the Scaleway provider: a shallow embedding

    The development follows [scaleway/helpers_instance.go].  Go values are
    modelled as follows.

    - A Go [string] is a [string]; the SDK's string-backed enumerations
      ([instance.ServerState], [instance.ServerAction], ...) are strings too,
      so that values outside the named constants exist, as they do in Go.
    - A pointer [*T] that the code tests against [nil] is an [option T].
    - A Go [error] is an [option error]: [None] is [nil].
    - A function returning [(T, error)] returns a pair, both components
      being written as the code writes them.
    - A [map[string]T] is a [gmap string T].
    - [time.Duration] is a number of nanoseconds in [Z]; [scw.Size] is a
      number of bytes in [Z], its additions wrapping at 2^64.
    - Calls into the vendor SDK and into the Go runtime are steps of a state
      monad over the state of the world; every call is appended to a log,
      so that "no call is made" is a statement about the log.
    - The [context.Context] that the helpers pass along plays no role and is
      left out. *)

From Stdlib Require Import ZArith Lia Ascii.
From stdpp Require Import base option list gmap strings sorting pretty fin_maps.

Local Open Scope string_scope.
Local Open Scope list_scope.
Local Open Scope nat_scope.
Local Open Scope stdpp_scope.

(** ** Errors *)

Module scw.

(** One entry of [scw.InvalidArgumentsError.Details]. *)
Record InvalidArgumentsErrorDetail := {
  ArgumentName : string;
  Reason : string;
  HelpMessage : string;
}.

Definition Zone := string.

End scw.

(** An error value.  [errorString] is what [fmt.Errorf] builds from a format
    without [%w]; [wrapError] is an error with an [Unwrap] method;
    [InvalidArgumentsError] is [*scw.InvalidArgumentsError], which has no
    [Unwrap] method and therefore ends a chain. *)
Inductive error :=
| errorString (msg : string)
| InvalidArgumentsError (Details : list scw.InvalidArgumentsErrorDetail)
| wrapError (msg : string) (err : error).

Module fmt.
Definition Errorf (msg : string) : error := errorString msg.
End fmt.

Module errors.

(** [errors.As(err, &target)] for a target of type
    [*scw.InvalidArgumentsError]: the first error of the chain of [err] that
    has this type, if there is one. *)
Fixpoint As_InvalidArgumentsError (err : error)
  : option (list scw.InvalidArgumentsErrorDetail) :=
  match err with
  | InvalidArgumentsError Details => Some Details
  | wrapError _ err => As_InvalidArgumentsError err
  | errorString _ => None
  end.

End errors.

(** The loop of [isIPReverseDNSResolveError] over the details. *)
Fixpoint isIPReverseDNSResolveError_details
    (Details : list scw.InvalidArgumentsErrorDetail) : bool :=
  match Details with
  | [] => false
  | fields :: Details =>
      if decide (scw.ArgumentName fields = "reverse") then true
      else isIPReverseDNSResolveError_details Details
  end.

(** [errors.As] answers false on a nil error. *)
Definition isIPReverseDNSResolveError (err : option error) : bool :=
  match err ≫= errors.As_InvalidArgumentsError with
  | None => false
  | Some Details => isIPReverseDNSResolveError_details Details
  end.

(** ** What the SDK provides

    [instance.ServerState] and its siblings are declared by the SDK as string
    types with named constants.  The constants' values are not part of this
    repository, hence they are taken as parameters, and so are the structures
    that the helpers only pass along without looking inside. *)

Module instance.
Definition ServerState := string.
Definition ServerAction := string.
Definition VolumeServerState := string.
Definition VolumeVolumeType := string.
End instance.

Class SDK := {
  Volume : Type;
  Image : Type;
  UpdateIPRequest : Type;
  UpdateIPResponse : Type;
  ServerStateRunning : instance.ServerState;
  ServerStateStopped : instance.ServerState;
  ServerStateStoppedInPlace : instance.ServerState;
  ServerStateLocked : instance.ServerState;
  ServerActionPoweron : instance.ServerAction;
  ServerActionPoweroff : instance.ServerAction;
  ServerActionStopInPlace : instance.ServerAction;
  VolumeServerStateAvailable : instance.VolumeServerState;
  VolumeVolumeTypeLSSD : instance.VolumeVolumeType;
}.

(** The values the constants have in [scaleway-sdk-go], with the opaque
    structures collapsed to a name; used for the concrete instances of the
    theorems. *)
Definition sdk_v1 : SDK := {|
  Volume := string;
  Image := string;
  UpdateIPRequest := string;
  UpdateIPResponse := string;
  ServerStateRunning := "running";
  ServerStateStopped := "stopped";
  ServerStateStoppedInPlace := "stopped in place";
  ServerStateLocked := "locked";
  ServerActionPoweron := "poweron";
  ServerActionPoweroff := "poweroff";
  ServerActionStopInPlace := "stop_in_place";
  VolumeServerStateAvailable := "available";
  VolumeVolumeTypeLSSD := "l_ssd";
|}.

(** The four states that [serverStateFlatten] switches on are distinct: they
    are constant case expressions of one [switch], which Go rejects when two
    of them are equal.  The same holds of the keys of the map literal of
    [reachState]. *)
Definition distinct_states `{sdk : SDK} : Prop :=
  NoDup [ServerStateStopped; ServerStateStoppedInPlace;
         ServerStateRunning; ServerStateLocked].

(** ** Package constants *)

Definition InstanceServerStateStopped : string := "stopped".
Definition InstanceServerStateStarted : string := "started".
Definition InstanceServerStateStandby : string := "standby".

Module time.
Definition Duration := Z.
Definition Nanosecond : Duration := 1%Z.
Definition Second : Duration := (1000000000 * Nanosecond)%Z.
Definition Minute : Duration := (60 * Second)%Z.
Definition Hour : Duration := (60 * Minute)%Z.
End time.

Definition defaultInstanceServerWaitTimeout : time.Duration :=
  (10 * time.Minute)%Z.
Definition defaultInstanceRetryInterval : time.Duration :=
  (5 * time.Second)%Z.

(** ** State translation *)

Section ServerState.
Context `{sdk : SDK}.

(** [serverStateFlatten] converts the API state to the terraform state. *)
Definition serverStateFlatten (fromState : instance.ServerState)
  : string * option error :=
  if decide (fromState = ServerStateStopped) then
    (InstanceServerStateStopped, None)
  else if decide (fromState = ServerStateStoppedInPlace) then
    (InstanceServerStateStandby, None)
  else if decide (fromState = ServerStateRunning) then
    (InstanceServerStateStarted, None)
  else if decide (fromState = ServerStateLocked) then
    ("", Some (fmt.Errorf "server is locked, please contact Scaleway support: https://console.scaleway.com/support/tickets"))
  else
    ("", Some (fmt.Errorf "server is in an invalid state, someone else might be executing action at the same time")).

(** The map literal of [serverStateExpand]. *)
Definition serverStateExpand_table : gmap string instance.ServerState :=
  <[InstanceServerStateStopped := ServerStateStopped]>
    (<[InstanceServerStateStandby := ServerStateStoppedInPlace]>
       (<[InstanceServerStateStarted := ServerStateRunning]> ∅)).

(** [serverStateExpand] converts the terraform state to an API state. *)
Definition serverStateExpand (rawState : string)
  : instance.ServerState * option error :=
  match serverStateExpand_table !! rawState with
  | None =>
      ("", Some (fmt.Errorf "server is in a transient state, someone else might be executing another action at the same time"))
  | Some apiState => (apiState, None)
  end.

End ServerState.


(** ** Structures of the SDK

    Each structure lists the fields that the helpers read or write. *)

Module VolumeServer.
Record t := { ID : string; State : instance.VolumeServerState }.
End VolumeServer.

(** [Volumes] is the server's volume map in the order in which the [range]
    statement of [reachState] visits it; Go leaves that order unspecified, so
    every list is a possible order. *)
Module Server.
Record t := { State : instance.ServerState; Volumes : list VolumeServer.t }.
End Server.

Module GetServerRequest.
Record t := { Zone : scw.Zone; ServerID : string }.
End GetServerRequest.

Module GetServerResponse.
Record t := { Server : Server.t }.
End GetServerResponse.

Module WaitForVolumeRequest.
Record t := {
  VolumeID : string;
  Zone : scw.Zone;
  Timeout : option time.Duration;
  RetryInterval : option time.Duration;
}.
End WaitForVolumeRequest.

Module ServerActionAndWaitRequest.
Record t := {
  ServerID : string;
  Zone : scw.Zone;
  Action : instance.ServerAction;
  Timeout : option time.Duration;
  RetryInterval : option time.Duration;
}.
End ServerActionAndWaitRequest.

Module WaitForSnapshotRequest.
Record t := {
  SnapshotID : string;
  Zone : scw.Zone;
  Timeout : option time.Duration;
  RetryInterval : option time.Duration;
}.
End WaitForSnapshotRequest.

Module WaitForServerRequest.
Record t := {
  ServerID : string;
  Zone : scw.Zone;
  Timeout : option time.Duration;
  RetryInterval : option time.Duration;
}.
End WaitForServerRequest.

Module WaitForImageRequest.
Record t := {
  ImageID : string;
  Zone : scw.Zone;
  Timeout : option time.Duration;
  RetryInterval : option time.Duration;
}.
End WaitForImageRequest.

Module WaitForPrivateNICRequest.
Record t := {
  ServerID : string;
  PrivateNicID : string;
  Zone : scw.Zone;
  Timeout : option time.Duration;
  RetryInterval : option time.Duration;
}.
End WaitForPrivateNICRequest.

Module WaitForMACAddressRequest.
Record t := {
  ServerID : string;
  PrivateNicID : string;
  Zone : scw.Zone;
  Timeout : option time.Duration;
  RetryInterval : option time.Duration;
}.
End WaitForMACAddressRequest.

Module PrivateNIC.
Record t := {
  ID : string;
  PrivateNetworkID : string;
  MacAddress : string;
  State : string;
}.
End PrivateNIC.

Module CreatePrivateNICRequest.
Record t := { Zone : scw.Zone; ServerID : string; PrivateNetworkID : string }.
End CreatePrivateNICRequest.

Module CreatePrivateNICResponse.
Record t := { PrivateNic : PrivateNIC.t }.
End CreatePrivateNICResponse.

Module DeletePrivateNICRequest.
Record t := { Zone : scw.Zone; ServerID : string; PrivateNicID : string }.
End DeletePrivateNICRequest.

Module SnapshotBaseVolume.
Record t := { ID : string; Name : string }.
End SnapshotBaseVolume.

(** [scw.Size] is an unsigned 64-bit number of bytes. *)
Module Snapshot.
Record t := {
  ID : string;
  BaseVolume : SnapshotBaseVolume.t;
  Size : Z;
  VolumeType : instance.VolumeVolumeType;
}.
End Snapshot.

Module VolumeServerTemplate.
Record t := {
  ID : option string;
  Boot : option bool;
  Name : option string;
  Size : option Z;
  VolumeType : instance.VolumeVolumeType;
}.
End VolumeServerTemplate.

Module ServerTypeVolumeConstraintSizes.
Record t := { MinSize : Z; MaxSize : Z }.
End ServerTypeVolumeConstraintSizes.

Module ServerType.
Record t := { VolumesConstraint : ServerTypeVolumeConstraintSizes.t }.
End ServerType.

Module GetSnapshotResponse.
Record t := { Snapshot : Snapshot.t }.
End GetSnapshotResponse.

Module VolumeTemplate.
Record t := {
  ID : string;
  Name : string;
  Size : Z;
  VolumeType : instance.VolumeVolumeType;
}.
End VolumeTemplate.

(** A value of type [interface{}] handed to [attach] or [detach]: nil or a
    string. *)
Inductive interface :=
| interface_nil
| interface_string (s : string).

(** ** Library functions *)

Module sort.
(** [sort.Strings] sorts in increasing order of the strings' bytes. *)
Definition Strings (x : list string) : list string := merge_sort String.le x.
End sort.

Module strconv.
(** [strconv.Itoa]: the decimal representation. *)
Definition Itoa (i : Z) : string := pretty i.
End strconv.

(** Arithmetic of [scw.Size], an unsigned 64-bit integer. *)
Definition uint64_add (a b : Z) : Z := ((a + b) mod 2 ^ 64)%Z.

(** Indexing a map whose values are pointers: nil when the key is absent. *)
Definition map_index {A} (m : gmap string (option A)) (index : string)
  : option A :=
  default None (m !! index).

(** ** Helpers on volume maps

    A [range] statement over a map visits its entries in an order that Go
    does not specify; [range] stands for the order taken.  [humanize.Bytes]
    belongs to another library and is a parameter too.

    The values of the maps given to [validateLocalVolumeSizes] and
    [sanitizeVolumeMap] are pointers that these functions dereference
    without a test; the maps are therefore modelled with the structures
    themselves as values. *)

Section VolumeMaps.
Context `{sdk : SDK}.
Variable range : ∀ A : Type, gmap string A → list (string * A).
Variable humanize_Bytes : Z → string.

(** [orderVolumes] returns a slice ordered by the keys of the volume map. *)
Definition orderVolumes (v : gmap string (option Volume))
  : list (option Volume) :=
  let indexes :=
    foldl (λ indexes '(index, _), indexes ++ [index]) [] (range _ v) in
  let indexes := sort.Strings indexes in
  let orderedVolumes :=
    foldl (λ orderedVolumes index, orderedVolumes ++ [map_index v index])
          [] indexes in
  orderedVolumes.

(** [sortVolumeServer] returns a slice ordered by the keys of the volume
    map. *)
Definition sortVolumeServer (v : gmap string (option VolumeServer.t))
  : list (option VolumeServer.t) :=
  let indexes :=
    foldl (λ indexes '(index, _), indexes ++ [index]) [] (range _ v) in
  let indexes := sort.Strings indexes in
  let sortedVolumes :=
    foldl (λ sortedVolumes index, sortedVolumes ++ [map_index v index])
          [] indexes in
  sortedVolumes.

(** [validateLocalVolumeSizes] validates the total size of local volumes.
    As the values of the map are not nil, [volumes["0"]] is nil exactly when
    the key is absent. *)
Definition validateLocalVolumeSizes
    (volumes : gmap string VolumeServerTemplate.t)
    (serverType : ServerType.t) (commercialType : string) : option error :=
  let localVolumeTotalSize :=
    foldl (λ localVolumeTotalSize '(_, volume),
             if decide (VolumeServerTemplate.VolumeType volume
                        = VolumeVolumeTypeLSSD)
             then
               match VolumeServerTemplate.Size volume with
               | Some size => uint64_add localVolumeTotalSize size
               | None => localVolumeTotalSize
               end
             else localVolumeTotalSize)
          0%Z (range _ volumes) in
  let volumeConstraint := ServerType.VolumesConstraint serverType in
  let MinSize := ServerTypeVolumeConstraintSizes.MinSize volumeConstraint in
  let MaxSize := ServerTypeVolumeConstraintSizes.MaxSize volumeConstraint in
  let localVolumeTotalSize :=
    match volumes !! "0" with
    | None => uint64_add localVolumeTotalSize MinSize
    | Some rootVolume => localVolumeTotalSize
    end in
  if (localVolumeTotalSize <? MinSize)%Z || (localVolumeTotalSize >? MaxSize)%Z
  then
    let min := humanize_Bytes MinSize in
    if (MinSize =? MaxSize)%Z then
      Some (fmt.Errorf
        (commercialType +:+ " total local volume size must be equal to " +:+
         min))
    else
      let max := humanize_Bytes MaxSize in
      Some (fmt.Errorf
        (commercialType +:+ " total local volume size must be between " +:+
         min +:+ " and " +:+ max))
  else None.

(** The [switch] of [sanitizeVolumeMap]. *)
Definition sanitizeVolume (index : string) (v : VolumeServerTemplate.t)
  : VolumeServerTemplate.t :=
  if decide (VolumeServerTemplate.ID v ≠ None) then
    {| VolumeServerTemplate.ID := VolumeServerTemplate.ID v;
       VolumeServerTemplate.Name := VolumeServerTemplate.Name v;
       VolumeServerTemplate.Boot := VolumeServerTemplate.Boot v;
       VolumeServerTemplate.Size := None;
       VolumeServerTemplate.VolumeType := "" |}
  else if decide (index = "0" ∧ VolumeServerTemplate.Size v = None) then
    {| VolumeServerTemplate.VolumeType := VolumeServerTemplate.VolumeType v;
       VolumeServerTemplate.Boot := VolumeServerTemplate.Boot v;
       VolumeServerTemplate.ID := None;
       VolumeServerTemplate.Name := None;
       VolumeServerTemplate.Size := None |}
  else v.

(** [sanitizeVolumeMap] removes extra data for API validation. *)
Definition sanitizeVolumeMap (volumes : gmap string VolumeServerTemplate.t)
  : gmap string VolumeServerTemplate.t :=
  let m : gmap string VolumeServerTemplate.t := ∅ in
  foldl (λ m '(index, v),
           let v := sanitizeVolume index v in
           <[index := v]> m)
        m (range _ volumes).

End VolumeMaps.

(** The keys of [v] sorted as strings: a duplicate-free arrangement of the
    keys in increasing order. *)
Definition sorted_keys {A} (v : gmap string A) (keys : list string) : Prop :=
  keys ≡ₚ (map_to_list v).*1 ∧ NoDup keys ∧ StronglySorted String.le keys.

(** The size that a volume contributes to the local total: its size when its
    type is LSSD and its size is not nil, nothing otherwise. *)
Definition local_volume_size `{sdk : SDK} (volume : VolumeServerTemplate.t)
  : Z :=
  if decide (VolumeServerTemplate.VolumeType volume = VolumeVolumeTypeLSSD)
  then default 0%Z (VolumeServerTemplate.Size volume)
  else 0%Z.

Definition Z_sum (l : list Z) : Z := foldr Z.add 0%Z l.

(** The sum, as a number, of the sizes of the local volumes, plus the minimum
    size when there is no volume at key "0". *)
Definition local_volumes_total `{sdk : SDK}
    (volumes : gmap string VolumeServerTemplate.t) (MinSize : Z) : Z :=
  (Z_sum (local_volume_size <$> (map_to_list volumes).*2) +
   match volumes !! "0" with
   | None => MinSize
   | Some _ => 0
   end)%Z.

(** ** Image templates *)

(** The loop of [expandInstanceImageExtraVolumesTemplates], from index [i]
    on.  The index of a slice stays below the largest [int], so [i+1] does
    not overflow. *)
Fixpoint expandInstanceImageExtraVolumesTemplates_loop (i : nat)
    (snapshots : list GetSnapshotResponse.t)
    (volTemplates : gmap string VolumeTemplate.t)
  : gmap string VolumeTemplate.t :=
  match snapshots with
  | [] => volTemplates
  | snapshot :: snapshots =>
      let snap := GetSnapshotResponse.Snapshot snapshot in
      let volTemplate :=
        {| VolumeTemplate.ID := Snapshot.ID snap;
           VolumeTemplate.Name :=
             SnapshotBaseVolume.Name (Snapshot.BaseVolume snap);
           VolumeTemplate.Size := Snapshot.Size snap;
           VolumeTemplate.VolumeType := Snapshot.VolumeType snap |} in
      expandInstanceImageExtraVolumesTemplates_loop (S i) snapshots
        (<[strconv.Itoa (Z.of_nat i + 1) := volTemplate]> volTemplates)
  end.

(** The slice may be nil ([None]).  A Go map may be nil as well: the result
    is [Some m] for a map [m] that is not nil. *)
Definition expandInstanceImageExtraVolumesTemplates
    (snapshots : option (list GetSnapshotResponse.t))
  : option (gmap string VolumeTemplate.t) :=
  let volTemplates : gmap string VolumeTemplate.t := ∅ in
  match snapshots with
  | None => Some volTemplates
  | Some snapshots =>
      Some (expandInstanceImageExtraVolumesTemplates_loop 0 snapshots
              volTemplates)
  end.

(** ** Calls into the SDK and the Go runtime

    A channel made by [time.After] is named by a number. *)

Definition Chan := nat.

Section Effects.
Context `{sdk : SDK}.

(** One entry of the log: the call and what it returned. *)
Inductive Event :=
| EvGetServer (req : GetServerRequest.t) (res : GetServerResponse.t + error)
| EvWaitForVolume (req : WaitForVolumeRequest.t)
    (res : option Volume * option error)
| EvServerActionAndWait (req : ServerActionAndWaitRequest.t)
    (err : option error)
| EvWaitForSnapshot (req : WaitForSnapshotRequest.t)
    (res : option Snapshot.t * option error)
| EvWaitForServer (req : WaitForServerRequest.t)
    (res : option Server.t * option error)
| EvWaitForImage (req : WaitForImageRequest.t)
    (res : option Image * option error)
| EvWaitForPrivateNIC (req : WaitForPrivateNICRequest.t)
    (res : option PrivateNIC.t * option error)
| EvWaitForMACAddress (req : WaitForMACAddressRequest.t)
    (res : option PrivateNIC.t * option error)
| EvCreatePrivateNIC (req : CreatePrivateNICRequest.t)
    (res : CreatePrivateNICResponse.t + error)
| EvDeletePrivateNIC (req : DeletePrivateNICRequest.t) (err : option error)
| EvUpdateIP (req : UpdateIPRequest)
    (res : option UpdateIPResponse * option error)
| EvTimeAfter (d : time.Duration) (c : Chan)
| EvSelect (c1 c2 : Chan) (first : bool).

(** The state of everything outside the provider: the remote service, the
    clock and the scheduler. *)
Context {W : Type}.

(** [*instance.API]: each method answers from the state of the world and
    changes it.  A method whose response the helpers dereference answers
    with either a response or an error. *)
Record API := {
  GetServer : GetServerRequest.t → W → (GetServerResponse.t + error) * W;
  WaitForVolume :
    WaitForVolumeRequest.t → W → (option Volume * option error) * W;
  ServerActionAndWait :
    ServerActionAndWaitRequest.t → W → option error * W;
  WaitForSnapshot :
    WaitForSnapshotRequest.t → W → (option Snapshot.t * option error) * W;
  WaitForServer :
    WaitForServerRequest.t → W → (option Server.t * option error) * W;
  WaitForImage :
    WaitForImageRequest.t → W → (option Image * option error) * W;
  WaitForPrivateNIC :
    WaitForPrivateNICRequest.t → W → (option PrivateNIC.t * option error) * W;
  WaitForMACAddress :
    WaitForMACAddressRequest.t → W → (option PrivateNIC.t * option error) * W;
  CreatePrivateNIC :
    CreatePrivateNICRequest.t → W → (CreatePrivateNICResponse.t + error) * W;
  DeletePrivateNIC : DeletePrivateNICRequest.t → W → option error * W;
  UpdateIP :
    UpdateIPRequest → W → (option UpdateIPResponse * option error) * W;
}.

(** The Go runtime: [time.After d] makes a channel; [select] over two
    channels blocks and tells whether the first case was taken. *)
Record Runtime := {
  time_After : time.Duration → W → Chan * W;
  select2 : Chan → Chan → W → bool * W;
}.

(** A computation answers with a value, the new state of the world and the
    calls it made, oldest first. *)
Definition M (A : Type) : Type := W → A * W * list Event.

Definition ret {A} (a : A) : M A := λ w, (a, w, []).

#[export] Instance M_bind : MBind M := λ A B f m w,
  let '(a, w1, l1) := m w in
  let '(b, w2, l2) := f a w1 in
  (b, w2, l1 ++ l2).

(** A call: run the handler and log the event. *)
Definition call {A} (h : W → A * W) (ev : A → Event) : M A := λ w,
  let '(a, w') := h w in (a, w', [ev a]).

Variable DefaultWaitRetryInterval : option time.Duration.

(** ** [reachState] *)

Section reachState.
Variable instanceAPI : API.
Variable zone : scw.Zone.
Variable serverID : string.

(** The map literal of [reachState]; keys are [[2]instance.ServerState]. *)
Definition transitionMap
  : gmap (instance.ServerState * instance.ServerState)
         (list instance.ServerAction) :=
  <[(ServerStateStopped, ServerStateRunning) := [ServerActionPoweron]]>
  (<[(ServerStateStopped, ServerStateStoppedInPlace) :=
       [ServerActionPoweron; ServerActionStopInPlace]]>
  (<[(ServerStateRunning, ServerStateStopped) := [ServerActionPoweroff]]>
  (<[(ServerStateRunning, ServerStateStoppedInPlace) :=
       [ServerActionStopInPlace]]>
  (<[(ServerStateStoppedInPlace, ServerStateRunning) :=
       [ServerActionPoweron]]>
  (<[(ServerStateStoppedInPlace, ServerStateStopped) :=
       [ServerActionPoweron; ServerActionPoweroff]]> ∅))))).

Definition reachState_waitRequest (volume : VolumeServer.t)
  : WaitForVolumeRequest.t :=
  {| WaitForVolumeRequest.Zone := zone;
     WaitForVolumeRequest.VolumeID := VolumeServer.ID volume;
     WaitForVolumeRequest.Timeout := None;
     WaitForVolumeRequest.RetryInterval := DefaultWaitRetryInterval |}.

Definition reachState_actionRequest (a : instance.ServerAction)
  : ServerActionAndWaitRequest.t :=
  {| ServerActionAndWaitRequest.ServerID := serverID;
     ServerActionAndWaitRequest.Action := a;
     ServerActionAndWaitRequest.Zone := zone;
     ServerActionAndWaitRequest.Timeout :=
       Some defaultInstanceServerWaitTimeout;
     ServerActionAndWaitRequest.RetryInterval := DefaultWaitRetryInterval |}.

(** The loop over [response.Server.Volumes]; the answer is the error of the
    [return err] inside the loop, or [None] when the loop runs to its end. *)
Fixpoint reachState_waitVolumes (volumes : list VolumeServer.t)
  : M (option error) :=
  match volumes with
  | [] => ret None
  | volume :: volumes =>
      if decide (VolumeServer.State volume ≠ VolumeServerStateAvailable) then
        res ← call (WaitForVolume instanceAPI (reachState_waitRequest volume))
                   (EvWaitForVolume (reachState_waitRequest volume));
        match res.2 with
        | Some err => ret (Some err)
        | None => reachState_waitVolumes volumes
        end
      else reachState_waitVolumes volumes
  end.

(** The loop over [actions]. *)
Fixpoint reachState_doActions (actions : list instance.ServerAction)
  : M (option error) :=
  match actions with
  | [] => ret None
  | a :: actions =>
      err ← call (ServerActionAndWait instanceAPI (reachState_actionRequest a))
                 (EvServerActionAndWait (reachState_actionRequest a));
      match err with
      | Some err => ret (Some err)
      | None => reachState_doActions actions
      end
  end.

Definition reachState (toState : instance.ServerState) : M (option error) :=
  let req := {| GetServerRequest.Zone := zone;
                GetServerRequest.ServerID := serverID |} in
  res ← call (GetServer instanceAPI req) (EvGetServer req);
  match res with
  | inr err => ret (Some err)
  | inl response =>
      let fromState := Server.State (GetServerResponse.Server response) in
      if decide (Server.State (GetServerResponse.Server response) = toState)
      then ret None
      else
        match transitionMap !! (fromState, toState) with
        | None =>
            ret (Some (fmt.Errorf
              ("don't know how to reach state " +:+ toState +:+
               " from state " +:+ fromState +:+
               " for server " +:+ serverID)))
        | Some actions =>
            err ← reachState_waitVolumes
                    (Server.Volumes (GetServerResponse.Server response));
            match err with
            | Some err => ret (Some err)
            | None => reachState_doActions actions
            end
        end
  end.

End reachState.

(** ** The wait helpers *)

Section wait.
Variable api : API.
Variable zone : scw.Zone.

Definition waitForInstanceSnapshot (id : string) (timeout : time.Duration)
  : M (option Snapshot.t * option error) :=
  let retryInterval := defaultInstanceRetryInterval in
  let retryInterval :=
    match DefaultWaitRetryInterval with
    | Some d => d
    | None => retryInterval
    end in
  let req := {| WaitForSnapshotRequest.SnapshotID := id;
                WaitForSnapshotRequest.Zone := zone;
                WaitForSnapshotRequest.Timeout := Some timeout;
                WaitForSnapshotRequest.RetryInterval := Some retryInterval |} in
  '(snapshot, err) ← call (WaitForSnapshot api req) (EvWaitForSnapshot req);
  ret (snapshot, err).

Definition waitForInstanceVolume (id : string) (timeout : time.Duration)
  : M (option Volume * option error) :=
  let retryInterval := defaultInstanceRetryInterval in
  let retryInterval :=
    match DefaultWaitRetryInterval with
    | Some d => d
    | None => retryInterval
    end in
  let req := {| WaitForVolumeRequest.VolumeID := id;
                WaitForVolumeRequest.Zone := zone;
                WaitForVolumeRequest.Timeout := Some timeout;
                WaitForVolumeRequest.RetryInterval := Some retryInterval |} in
  '(volume, err) ← call (WaitForVolume api req) (EvWaitForVolume req);
  ret (volume, err).

Definition waitForInstanceServer (id : string) (timeout : time.Duration)
  : M (option Server.t * option error) :=
  let retryInterval := defaultInstanceRetryInterval in
  let retryInterval :=
    match DefaultWaitRetryInterval with
    | Some d => d
    | None => retryInterval
    end in
  let req := {| WaitForServerRequest.Zone := zone;
                WaitForServerRequest.ServerID := id;
                WaitForServerRequest.Timeout := Some timeout;
                WaitForServerRequest.RetryInterval := Some retryInterval |} in
  '(server, err) ← call (WaitForServer api req) (EvWaitForServer req);
  ret (server, err).

Definition waitForPrivateNIC (serverID privateNICID : string)
    (timeout : time.Duration) : M (option PrivateNIC.t * option error) :=
  let retryInterval := defaultInstanceRetryInterval in
  let retryInterval :=
    match DefaultWaitRetryInterval with
    | Some d => d
    | None => retryInterval
    end in
  let req := {| WaitForPrivateNICRequest.ServerID := serverID;
                WaitForPrivateNICRequest.PrivateNicID := privateNICID;
                WaitForPrivateNICRequest.Zone := zone;
                WaitForPrivateNICRequest.Timeout := Some timeout;
                WaitForPrivateNICRequest.RetryInterval := Some retryInterval |} in
  '(nic, err) ← call (WaitForPrivateNIC api req) (EvWaitForPrivateNIC req);
  ret (nic, err).

Definition waitForMACAddress (serverID privateNICID : string)
    (timeout : time.Duration) : M (option PrivateNIC.t * option error) :=
  let retryInterval := defaultInstanceRetryInterval in
  let retryInterval :=
    match DefaultWaitRetryInterval with
    | Some d => d
    | None => retryInterval
    end in
  let req := {| WaitForMACAddressRequest.ServerID := serverID;
                WaitForMACAddressRequest.PrivateNicID := privateNICID;
                WaitForMACAddressRequest.Zone := zone;
                WaitForMACAddressRequest.Timeout := Some timeout;
                WaitForMACAddressRequest.RetryInterval := Some retryInterval |} in
  '(nic, err) ← call (WaitForMACAddress api req) (EvWaitForMACAddress req);
  ret (nic, err).

Definition waitForInstanceImage (id : string) (timeout : time.Duration)
  : M (option Image * option error) :=
  let retryInterval := defaultInstanceRetryInterval in
  let retryInterval :=
    match DefaultWaitRetryInterval with
    | Some d => d
    | None => retryInterval
    end in
  let req := {| WaitForImageRequest.ImageID := id;
                WaitForImageRequest.Zone := zone;
                WaitForImageRequest.Timeout := Some timeout;
                WaitForImageRequest.RetryInterval := Some retryInterval |} in
  '(image, err) ← call (WaitForImage api req) (EvWaitForImage req);
  ret (image, err).

End wait.

(** ** [privateNICsHandler]

    [expandStringPtr] and [expandID] are helpers of the provider that live in
    another file; they are taken as parameters. *)

Record privateNICsHandler := {
  instanceAPI : API;
  serverID : string;
  privateNICsMap : gmap string PrivateNIC.t;
  zone : scw.Zone;
}.

Section privateNICsHandler.
Variable expandStringPtr : interface → option string.
Variable expandID : string → string.

Definition detach (ph : privateNICsHandler) (o : interface)
    (timeout : time.Duration) : M (option error) :=
  let oPtr := expandStringPtr o in
  match oPtr with
  | Some o' =>
      if decide (0 < String.length o') then
        let idPN := expandID o' in
        match privateNICsMap ph !! idPN with
        | Some p =>
            '(_, err) ← waitForPrivateNIC (instanceAPI ph) (zone ph)
                          (serverID ph) (expandID (PrivateNIC.ID p)) timeout;
            match err with
            | Some err => ret (Some err)
            | None =>
                let req :=
                  {| DeletePrivateNICRequest.PrivateNicID :=
                       expandID (PrivateNIC.ID p);
                     DeletePrivateNICRequest.Zone := zone ph;
                     DeletePrivateNICRequest.ServerID := serverID ph |} in
                err ← call (DeletePrivateNIC (instanceAPI ph) req)
                           (EvDeletePrivateNIC req);
                match err with
                | Some err => ret (Some err)
                | None => ret None
                end
            end
        | None => ret None
        end
      else ret None
  | None => ret None
  end.

Definition attach (ph : privateNICsHandler) (n : interface)
    (timeout : time.Duration) : M (option error) :=
  match expandStringPtr n with
  | Some n' =>
      let privateNetworkID := expandID n' in
      match privateNICsMap ph !! privateNetworkID with
      | None =>
          let req :=
            {| CreatePrivateNICRequest.Zone := zone ph;
               CreatePrivateNICRequest.ServerID := serverID ph;
               CreatePrivateNICRequest.PrivateNetworkID := privateNetworkID |} in
          res ← call (CreatePrivateNIC (instanceAPI ph) req)
                     (EvCreatePrivateNIC req);
          match res with
          | inr err => ret (Some err)
          | inl pn =>
              '(_, err) ← waitForPrivateNIC (instanceAPI ph) (zone ph)
                  (serverID ph)
                  (PrivateNIC.ID (CreatePrivateNICResponse.PrivateNic pn))
                  timeout;
              match err with
              | Some err => ret (Some err)
              | None =>
                  '(_, err) ← waitForMACAddress (instanceAPI ph) (zone ph)
                      (serverID ph)
                      (PrivateNIC.ID (CreatePrivateNICResponse.PrivateNic pn))
                      timeout;
                  match err with
                  | Some err => ret (Some err)
                  | None => ret None
                  end
              end
          end
      | Some _ => ret None
      end
  | None => ret None
  end.

End privateNICsHandler.

(** ** [retryUpdateReverseDNS]

    The [for] loop has no bound of its own, so the embedding takes the number
    of iterations it may run as [fuel]; [None] means that the fuel ran out
    before the loop returned. *)

Section retryUpdateReverseDNS.
Variable runtime : Runtime.
Variable instanceAPI : API.
Variable req : UpdateIPRequest.

Fixpoint retryUpdateReverseDNS_loop (fuel : nat) (timeoutChannel : Chan)
  : M (option (option error)) :=
  match fuel with
  | O => ret None
  | S fuel =>
      tick ← call (time_After runtime defaultInstanceRetryInterval)
                  (EvTimeAfter defaultInstanceRetryInterval);
      first ← call (select2 runtime tick timeoutChannel)
                   (EvSelect tick timeoutChannel);
      if first : bool then
        res ← call (UpdateIP instanceAPI req) (EvUpdateIP req);
        let err := res.2 in
        if bool_decide (err ≠ None) && isIPReverseDNSResolveError err then
          retryUpdateReverseDNS_loop fuel timeoutChannel
        else ret (Some err)
      else
        res ← call (UpdateIP instanceAPI req) (EvUpdateIP req);
        let err := res.2 in
        ret (Some err)
  end.

Definition retryUpdateReverseDNS (fuel : nat) (timeout : time.Duration)
  : M (option (option error)) :=
  timeoutChannel ← call (time_After runtime timeout) (EvTimeAfter timeout);
  retryUpdateReverseDNS_loop fuel timeoutChannel.

End retryUpdateReverseDNS.

End Effects.

Arguments API {_} W.
Arguments privateNICsHandler {_} W.
Arguments Runtime : clear implicits.
Arguments M {_} W A.

(** The power actions in a log, oldest first. *)
Definition power_actions `{sdk : SDK} (log : list Event)
  : list ServerActionAndWaitRequest.t :=
  omap (λ ev, match ev with
              | EvServerActionAndWait req _ => Some req
              | _ => None
              end) log.

(** The error that a logged call returned. *)
Definition event_error `{sdk : SDK} (ev : Event) : option error :=
  match ev with
  | EvGetServer _ (inr err) | EvCreatePrivateNIC _ (inr err) => Some err
  | EvGetServer _ (inl _) | EvCreatePrivateNIC _ (inl _) => None
  | EvWaitForVolume _ res => res.2
  | EvWaitForSnapshot _ res => res.2
  | EvWaitForServer _ res => res.2
  | EvWaitForImage _ res => res.2
  | EvWaitForPrivateNIC _ res => res.2
  | EvWaitForMACAddress _ res => res.2
  | EvUpdateIP _ res => res.2
  | EvServerActionAndWait _ err | EvDeletePrivateNIC _ err => err
  | EvTimeAfter _ _ | EvSelect _ _ _ => None
  end.

(** A log in which only the last call may have failed, and the error of that
    last call. *)
Definition stops_at_first_error `{sdk : SDK} (log : list Event) : Prop :=
  ∀ l1 ev l2, log = l1 ++ ev :: l2 → l2 ≠ [] → event_error ev = None.

Definition last_error `{sdk : SDK} (log : list Event) : option error :=
  last log ≫= event_error.

(** The six entries of the transition table of [reachState], as a list:
    current state, target state, actions. *)
Definition transition_table `{sdk : SDK}
  : list (instance.ServerState * instance.ServerState *
          list instance.ServerAction) :=
  [ (ServerStateStopped, ServerStateRunning, [ServerActionPoweron]);
    (ServerStateStopped, ServerStateStoppedInPlace,
      [ServerActionPoweron; ServerActionStopInPlace]);
    (ServerStateRunning, ServerStateStopped, [ServerActionPoweroff]);
    (ServerStateRunning, ServerStateStoppedInPlace, [ServerActionStopInPlace]);
    (ServerStateStoppedInPlace, ServerStateRunning, [ServerActionPoweron]);
    (ServerStateStoppedInPlace, ServerStateStopped,
      [ServerActionPoweron; ServerActionPoweroff]) ].

(** The retry interval that the claim about the wait helpers describes:
    [DefaultWaitRetryInterval] when it is set, five seconds otherwise. *)
Definition wait_retry_interval (DefaultWaitRetryInterval : option time.Duration)
  : time.Duration :=
  match DefaultWaitRetryInterval with
  | Some d => d
  | None => 5000000000%Z
  end.

(** What it means for a helper to forward one SDK call: the helper makes the
    call [sdk_call] on [req] and nothing else, and answers with what the
    call answered. *)
Definition forwards `{sdk : SDK} {W Req Res} (helper : M W Res)
    (sdk_call : Req → W → Res * W) (ev : Req → Res → Event) (req : Req)
  : Prop :=
  ∀ w, helper w =
       ((sdk_call req w).1, (sdk_call req w).2, [ev req (sdk_call req w).1]).

(** ** Vocabulary of the claim about [retryUpdateReverseDNS] *)

(** [unwraps_to err target]: [target] is [err] or is reached from it by
    [Unwrap]. *)
Inductive unwraps_to : error → error → Prop :=
| unwraps_to_refl err : unwraps_to err err
| unwraps_to_step msg err target :
    unwraps_to err target → unwraps_to (wrapError msg err) target.

(** An IP reverse-DNS resolve error: an error that unwraps to an
    [InvalidArgumentsError] with a detail whose argument name is
    "reverse". *)
Definition IPReverseDNSResolveError (err : option error) : Prop :=
  ∃ e Details fields,
    err = Some e ∧ unwraps_to e (InvalidArgumentsError Details) ∧
    fields ∈ Details ∧ scw.ArgumentName fields = "reverse".

(** The logs that the claim allows after the timeout channel [tc] has been
    made, and the error returned.  Every round waits on a fresh timer of five
    seconds (in nanoseconds) and makes one [UpdateIP] call.  A round taken
    because the timeout elapsed is the last one; a round whose call succeeds
    or fails with another error is the last one; a round whose call fails
    with a resolve error is followed by another round. *)
Inductive retry_rounds `{sdk : SDK} (req : UpdateIPRequest) (tc : Chan)
  : list Event → option error → Prop :=
| retry_timeout tick res :
    retry_rounds req tc
      [EvTimeAfter 5000000000%Z tick; EvSelect tick tc false; EvUpdateIP req res]
      res.2
| retry_return tick res :
    ¬ IPReverseDNSResolveError res.2 →
    retry_rounds req tc
      [EvTimeAfter 5000000000%Z tick; EvSelect tick tc true; EvUpdateIP req res]
      res.2
| retry_again tick res log err :
    IPReverseDNSResolveError res.2 →
    retry_rounds req tc log err →
    retry_rounds req tc
      (EvTimeAfter 5000000000%Z tick :: EvSelect tick tc true ::
       EvUpdateIP req res :: log)
      err.

(** The timeout elapses after finitely many rounds: [rounds_left] bounds the
    number of rounds in which [select] can still take the retry case. *)
Record timeout_elapses `{sdk : SDK} {W} (runtime : Runtime W)
    (instanceAPI : API W) (req : UpdateIPRequest) (rounds_left : W → nat)
  : Prop := {
  timeout_elapses_After d w :
    rounds_left (time_After runtime d w).2 ≤ rounds_left w;
  timeout_elapses_UpdateIP w :
    rounds_left (UpdateIP instanceAPI req w).2 ≤ rounds_left w;
  timeout_elapses_select c1 c2 w :
    (select2 runtime c1 c2 w).1 = true →
    rounds_left (select2 runtime c1 c2 w).2 < rounds_left w;
}.

(** ** Concrete worlds

    Small services over which the functions are run: the SDK's constants are
    those of [sdk_v1]. *)

Module Examples.

#[local] Existing Instance sdk_v1.

(** An error as the service answers when the reverse name of an IP does not
    resolve yet. *)
Definition reverse_error : error :=
  wrapError "scaleway-sdk-go: invalid argument(s)"
    (InvalidArgumentsError
       [ {| scw.ArgumentName := "reverse";
            scw.Reason := "constraint";
            scw.HelpMessage := "Your reverse must resolve" |} ]).

(** A service, over any world, that never changes the world and whose calls
    all succeed, except that [ServerActionAndWait] fails when [power_fails]
    is set, that no private NIC can be created and that [UpdateIP] answers
    with [update_error]; the server it describes is in state [state] and has
    one volume that is not available. *)
Definition stateless_api {W} (state : instance.ServerState)
    (power_fails : bool) (update_error : option error) : API W := {|
  GetServer := λ _ w,
    (inl {| GetServerResponse.Server :=
              {| Server.State := state;
                 Server.Volumes :=
                   [ {| VolumeServer.ID := "vol-1";
                        VolumeServer.State := "snapshotting" |} ] |} |}, w);
  WaitForVolume := λ _ w, ((Some "vol-1", None), w);
  ServerActionAndWait := λ _ w,
    (if power_fails then Some (errorString "power action refused") else None,
     w);
  WaitForSnapshot := λ _ w, ((None, None), w);
  WaitForServer := λ _ w, ((None, None), w);
  WaitForImage := λ _ w, ((None, None), w);
  WaitForPrivateNIC := λ _ w, ((None, None), w);
  WaitForMACAddress := λ _ w, ((None, None), w);
  CreatePrivateNIC := λ _ w, (inr (errorString "not available"), w);
  DeletePrivateNIC := λ _ w, (None, w);
  UpdateIP := λ _ w, ((None, update_error), w);
|}.

(** A runtime whose world is the number of rounds left before the timeout
    elapses, with the number of channels made so far. *)
Definition countdown : Runtime (nat * nat) := {|
  time_After := λ _ '(rounds, chans), (chans, (rounds, S chans));
  select2 := λ _ _ '(rounds, chans),
    match rounds with
    | O => (false, (O, chans))
    | S rounds => (true, (rounds, chans))
    end;
|}.

(** The order in which stdpp lists a map, as one order of [range]. *)
Definition map_range (A : Type) (m : gmap string A) : list (string * A) :=
  map_to_list m.

(** The provider's [expandStringPtr]: nil for nil and for the empty string,
    a pointer to the string otherwise. *)
Definition expandStringPtr (data : interface) : option string :=
  match data with
  | interface_nil => None
  | interface_string s => if decide (s = "") then None else Some s
  end.

(** What follows the first "/" of [s], if there is one. *)
Fixpoint after_slash (s : string) : option string :=
  match s with
  | EmptyString => None
  | String c s => if decide (c = "/"%char) then Some s else after_slash s
  end.

(** An [expandID]: the identifier without its locality. *)
Definition expandID (id : string) : string := default id (after_slash id).

(** A handler that knows one attached private network. *)
Definition one_nic_handler : privateNICsHandler unit := {|
  instanceAPI := stateless_api "running" false None;
  serverID := "srv";
  privateNICsMap :=
    {[ "pn-1" := {| PrivateNIC.ID := "nic-1";
                    PrivateNIC.PrivateNetworkID := "pn-1";
                    PrivateNIC.MacAddress := "02:00:00:00:00:01";
                    PrivateNIC.State := "available" |} ]};
  zone := "fr-par-1";
|}.

(** Two local volumes whose sizes add up to 2^64 + 15 GB, for a server type
    that takes between 10 GB and 20 GB. *)
Definition huge_volumes : gmap string VolumeServerTemplate.t :=
  {[ "0" := {| VolumeServerTemplate.ID := None;
               VolumeServerTemplate.Boot := None;
               VolumeServerTemplate.Name := None;
               VolumeServerTemplate.Size := Some (2 ^ 63)%Z;
               VolumeServerTemplate.VolumeType := "l_ssd" |};
     "1" := {| VolumeServerTemplate.ID := None;
               VolumeServerTemplate.Boot := None;
               VolumeServerTemplate.Name := None;
               VolumeServerTemplate.Size := Some (2 ^ 63 + 15000000000)%Z;
               VolumeServerTemplate.VolumeType := "l_ssd" |} ]}.

(** One local volume of 15 GB at key "1", no root volume. *)
Definition small_volumes : gmap string VolumeServerTemplate.t :=
  {[ "1" := {| VolumeServerTemplate.ID := None;
               VolumeServerTemplate.Boot := None;
               VolumeServerTemplate.Name := None;
               VolumeServerTemplate.Size := Some 15000000000%Z;
               VolumeServerTemplate.VolumeType := "l_ssd" |} ]}.

Definition server_type_10_20 : ServerType.t :=
  {| ServerType.VolumesConstraint :=
       {| ServerTypeVolumeConstraintSizes.MinSize := 10000000000%Z;
          ServerTypeVolumeConstraintSizes.MaxSize := 20000000000%Z |} |}.

(** Three volumes under the keys "0", "1" and "10". *)
Definition three_volumes : gmap string (option string) :=
  {[ "10" := Some "vol-c"; "0" := Some "vol-a"; "1" := Some "vol-b" ]}.

End Examples.

(** * The other helpers of the file *)

(** ** [formatImageLabel] *)

Module strings.

(** [strings.ReplaceAll s old new] for an [old] that is not empty: the
    occurrences of [old] are found from the left and do not overlap.
    [skip] counts the characters of the occurrence just replaced that are
    still to be dropped.  (For an empty [old] Go inserts [new] around every
    rune; the provider does not use that case.) *)
Fixpoint ReplaceAll_from (old new : string) (skip : nat) (s : string)
  : string :=
  match s with
  | EmptyString => EmptyString
  | String c s' =>
      match skip with
      | S skip => ReplaceAll_from old new skip s'
      | O =>
          if String.prefix old s
          then new +:+ ReplaceAll_from old new (String.length old - 1) s'
          else String c (ReplaceAll_from old new 0 s')
      end
  end.

Definition ReplaceAll (s old new : string) : string :=
  ReplaceAll_from old new 0 s.

End strings.

Definition formatImageLabel (imageUUID : string) : string :=
  strings.ReplaceAll imageUUID "-" "_".

(** What becomes of one character of an image UUID in its label. *)
Definition label_char (c : ascii) : ascii :=
  if decide (c = "-"%char) then "_"%char else c.

(** The characters of a string. *)
Fixpoint chars (s : string) : list ascii :=
  match s with
  | EmptyString => []
  | String c s => c :: chars s
  end.

(** ** More structures of the SDK *)

Module GetSnapshotRequest.
Record t := { Zone : scw.Zone; SnapshotID : string }.
End GetSnapshotRequest.

Module ListPrivateNICsRequest.
Record t := { Zone : scw.Zone; ServerID : string }.
End ListPrivateNICsRequest.

Module ListPrivateNICsResponse.
Record t := { PrivateNics : list PrivateNIC.t }.
End ListPrivateNICsResponse.

Module GetServerTypeRequest.
Record t := { Zone : scw.Zone; Name : string }.
End GetServerTypeRequest.

Module vpc.

Module GetPrivateNetworkRequest.
Record t := { PrivateNetworkID : string; Zone : scw.Zone }.
End GetPrivateNetworkRequest.

Module PrivateNetwork.
Record t := { ID : string; Zone : scw.Zone }.
End PrivateNetwork.

End vpc.

(** What a function does: it returns, or it panics. *)
Inductive outcome (A : Type) :=
| Returns (a : A)
| Panics.
Arguments Returns {A} a.
Arguments Panics {A}.

(** ** More calls

    The helpers below call methods of [*instance.API] that the first part
    does not need, a method of [*vpc.API], and the logger.  Their log holds
    the calls of the first part beside the new ones. *)

Section MoreEffects.
Context `{sdk : SDK} {W : Type}.

Inductive Call :=
| CallInstance (ev : Event)
| CallGetSnapshot (req : GetSnapshotRequest.t)
    (res : GetSnapshotResponse.t + error)
| CallListPrivateNICs (req : ListPrivateNICsRequest.t)
    (res : ListPrivateNICsResponse.t + error)
| CallGetServerType (req : GetServerTypeRequest.t)
    (res : option ServerType.t * option error)
| CallGetPrivateNetwork (req : vpc.GetPrivateNetworkRequest.t)
    (res : vpc.PrivateNetwork.t + error)
| CallWarn (msg : string).

(** The further methods of [*instance.API]. *)
Record MoreAPI := {
  GetSnapshot :
    GetSnapshotRequest.t → W → (GetSnapshotResponse.t + error) * W;
  ListPrivateNICs :
    ListPrivateNICsRequest.t → W → (ListPrivateNICsResponse.t + error) * W;
  GetServerType :
    GetServerTypeRequest.t → W → (option ServerType.t * option error) * W;
}.

(** [*vpc.API]. *)
Record vpcAPI := {
  GetPrivateNetwork :
    vpc.GetPrivateNetworkRequest.t → W → (vpc.PrivateNetwork.t + error) * W;
}.

Definition N (A : Type) : Type := W → A * W * list Call.

Definition N_ret {A} (a : A) : N A := λ w, (a, w, []).

#[export] Instance N_bind : MBind N := λ A B f m w,
  let '(a, w1, l1) := m w in
  let '(b, w2, l2) := f a w1 in
  (b, w2, l1 ++ l2).

Definition invoke {A} (h : W → A * W) (c : A → Call) : N A := λ w,
  let '(a, w') := h w in (a, w', [c a]).

(** A computation of the first part, run as it is. *)
Definition lift {A} (m : M W A) : N A := λ w,
  let '(a, w', log) := m w in (a, w', CallInstance <$> log).

(** [tflog.Warn]. *)
Definition tflog_Warn (msg : string) : N unit := λ w, (tt, w, [CallWarn msg]).

(** ** [getServerType]

    [Error] is the method of the [error] interface. *)

Definition getServerType (Error : error → string) (apiInstance : MoreAPI)
    (zone : scw.Zone) (commercialType : string) : N (option ServerType.t) :=
  let req := {| GetServerTypeRequest.Zone := zone;
                GetServerTypeRequest.Name := commercialType |} in
  '(serverType, err) ← invoke (GetServerType apiInstance req)
                              (CallGetServerType req);
  match err with
  | Some err =>
      _ ← tflog_Warn ("cannot get server types: " +:+ Error err);
      N_ret None
  | None =>
      _ ← match serverType with
          | None => tflog_Warn ("unrecognized server type: " +:+ commercialType)
          | Some _ => N_ret tt
          end;
      N_ret serverType
  end.

(** ** [preparePrivateNIC]

    [data] is nil or a slice of maps; an assertion [x.(string)] panics when
    [x] is nil.  Of [server] the function reads the zone and the ID, which
    are given in its place. *)

Section preparePrivateNIC.
Variable expandID : string → string.
Variable vpcAPI' : vpcAPI.
Variable server_Zone : scw.Zone.
Variable server_ID : string.

Fixpoint preparePrivateNIC_loop (data : list (gmap string interface))
    (res : option (list CreatePrivateNICRequest.t))
  : N (outcome (option (list CreatePrivateNICRequest.t) * option error)) :=
  match data with
  | [] => N_ret (Returns (res, None))
  | r :: data =>
      let zonedID := default interface_nil (r !! "pn_id") in
      let pnExist := bool_decide (is_Some (r !! "pn_id")) in
      match zonedID with
      | interface_nil => N_ret Panics
      | interface_string zonedID =>
          let privateNetworkID := expandID zonedID in
          if pnExist then
            let req :=
              {| vpc.GetPrivateNetworkRequest.PrivateNetworkID :=
                   expandID privateNetworkID;
                 vpc.GetPrivateNetworkRequest.Zone := server_Zone |} in
            got ← invoke (GetPrivateNetwork vpcAPI' req)
                         (CallGetPrivateNetwork req);
            match got with
            | inr err => N_ret (Returns (None, Some err))
            | inl currentPN =>
                let query :=
                  {| CreatePrivateNICRequest.Zone :=
                       vpc.PrivateNetwork.Zone currentPN;
                     CreatePrivateNICRequest.ServerID := server_ID;
                     CreatePrivateNICRequest.PrivateNetworkID :=
                       vpc.PrivateNetwork.ID currentPN |} in
                preparePrivateNIC_loop data (Some (default [] res ++ [query]))
            end
          else preparePrivateNIC_loop data res
      end
  end.

Definition preparePrivateNIC (data : option (list (gmap string interface)))
  : N (outcome (option (list CreatePrivateNICRequest.t) * option error)) :=
  match data with
  | None => N_ret (Returns (None, None))
  | Some data => preparePrivateNIC_loop data None
  end.

End preparePrivateNIC.

(** ** [newPrivateNICHandler], [flatPrivateNICs] and [get]

    [flatPrivateNICs] assigns a field of the handler: it answers with the
    handler as it is afterwards.  A map that is nil reads like the empty
    map. *)

Definition flatPrivateNICs (more : MoreAPI) (ph : privateNICsHandler W)
  : N (privateNICsHandler W * option error) :=
  let privateNICsMap : gmap string PrivateNIC.t := ∅ in
  let req := {| ListPrivateNICsRequest.Zone := zone ph;
                ListPrivateNICsRequest.ServerID := serverID ph |} in
  res ← invoke (ListPrivateNICs more req) (CallListPrivateNICs req);
  match res with
  | inr err => N_ret (ph, Some err)
  | inl res =>
      let privateNICsMap :=
        foldl (λ privateNICsMap p,
                 <[PrivateNIC.PrivateNetworkID p := p]> privateNICsMap)
              privateNICsMap (ListPrivateNICsResponse.PrivateNics res) in
      N_ret ({| instanceAPI := instanceAPI ph;
                serverID := serverID ph;
                privateNICsMap := privateNICsMap;
                zone := zone ph |}, None)
  end.

Definition newPrivateNICHandler (api : API W) (more : MoreAPI)
    (server : string) (zone' : scw.Zone)
  : N (privateNICsHandler W * option error) :=
  let handler := {| instanceAPI := api;
                    serverID := server;
                    privateNICsMap := ∅;
                    zone := zone' |} in
  flatPrivateNICs more handler.

(** [parseLocalizedID] lives in another file of the provider and [String]
    is a method of the SDK's state of a private NIC; both are parameters. *)
Definition get (parseLocalizedID : string → string * string * option error)
    (State_String : string → string) (ph : privateNICsHandler W)
    (key : string) : option (gmap string string) * option error :=
  let '(locality, id, err) := parseLocalizedID key in
  match err with
  | Some err => (None, Some err)
  | None =>
      match privateNICsMap ph !! id with
      | None =>
          (None, Some (fmt.Errorf
             ("could not find private network ID " +:+ key +:+
              " on locality " +:+ locality)))
      | Some pn =>
          (Some (<["pn_id" := key]>
                 (<["mac_address" := PrivateNIC.MacAddress pn]>
                 (<["status" := State_String (PrivateNIC.State pn)]>
                 (<["zone" := locality]> ∅)))),
           None)
      end
  end.

(** ** [getSnapshotsFromIds]

    [parseZonedID] lives in another file of the provider.  The identifiers
    are strings; a slice is nil ([None]) until something is appended. *)

Section getSnapshotsFromIds.
Variable parseZonedID : string → scw.Zone * string * option error.
Variable instanceAPI' : MoreAPI.

Definition getSnapshotsFromIds_request (snapID : string)
  : GetSnapshotRequest.t :=
  let '(zone, id, _) := parseZonedID snapID in
  {| GetSnapshotRequest.Zone := zone; GetSnapshotRequest.SnapshotID := id |}.

Fixpoint getSnapshotsFromIds_loop (snapIDs : list string)
    (snapResponses : option (list GetSnapshotResponse.t))
  : N (option (list GetSnapshotResponse.t) * option error) :=
  match snapIDs with
  | [] => N_ret (snapResponses, None)
  | snapID :: snapIDs =>
      let '(zone, id, err) := parseZonedID snapID in
      match err with
      | Some err => N_ret (None, Some err)
      | None =>
          let req := {| GetSnapshotRequest.Zone := zone;
                        GetSnapshotRequest.SnapshotID := id |} in
          got ← invoke (GetSnapshot instanceAPI' req) (CallGetSnapshot req);
          match got with
          | inr _ =>
              N_ret (snapResponses,
                     Some (fmt.Errorf
                       ("extra volumes : could not find snapshot with id " +:+
                        snapID)))
          | inl snapshot =>
              getSnapshotsFromIds_loop snapIDs
                (Some (default [] snapResponses ++ [snapshot]))
          end
      end
  end.

Definition getSnapshotsFromIds (snapIDs : list string)
  : N (option (list GetSnapshotResponse.t) * option error) :=
  getSnapshotsFromIds_loop snapIDs None.

End getSnapshotsFromIds.

End MoreEffects.

Arguments MoreAPI : clear implicits.
Arguments vpcAPI : clear implicits.
Arguments N {_} W A.

(** ** The logs of [attach] and [detach] *)

Section attachDetachLogs.
Context `{sdk : SDK} {W : Type}.
Variable DefaultWaitRetryInterval : option time.Duration.
Variable expandID : string → string.
Variable ph : privateNICsHandler W.
Variable timeout : time.Duration.

(** The requests of the calls that [attach] and [detach] make for the NIC or
    the network with ID [id]. *)
Definition nic_request (id : string) : WaitForPrivateNICRequest.t :=
  {| WaitForPrivateNICRequest.ServerID := serverID ph;
     WaitForPrivateNICRequest.PrivateNicID := id;
     WaitForPrivateNICRequest.Zone := zone ph;
     WaitForPrivateNICRequest.Timeout := Some timeout;
     WaitForPrivateNICRequest.RetryInterval :=
       Some (wait_retry_interval DefaultWaitRetryInterval) |}.

Definition mac_request (id : string) : WaitForMACAddressRequest.t :=
  {| WaitForMACAddressRequest.ServerID := serverID ph;
     WaitForMACAddressRequest.PrivateNicID := id;
     WaitForMACAddressRequest.Zone := zone ph;
     WaitForMACAddressRequest.Timeout := Some timeout;
     WaitForMACAddressRequest.RetryInterval :=
       Some (wait_retry_interval DefaultWaitRetryInterval) |}.

Definition create_request (id : string) : CreatePrivateNICRequest.t :=
  {| CreatePrivateNICRequest.Zone := zone ph;
     CreatePrivateNICRequest.ServerID := serverID ph;
     CreatePrivateNICRequest.PrivateNetworkID := id |}.

Definition delete_request (id : string) : DeletePrivateNICRequest.t :=
  {| DeletePrivateNICRequest.PrivateNicID := id;
     DeletePrivateNICRequest.Zone := zone ph;
     DeletePrivateNICRequest.ServerID := serverID ph |}.

(** The logs that [attach] can leave when it creates a NIC on the network
    [id], with the error returned. *)
Inductive attach_log (id : string) : list Event → option error → Prop :=
| attach_create_failed e :
    attach_log id [EvCreatePrivateNIC (create_request id) (inr e)] (Some e)
| attach_wait_failed pn nic e :
    let nicID := PrivateNIC.ID (CreatePrivateNICResponse.PrivateNic pn) in
    attach_log id
      [EvCreatePrivateNIC (create_request id) (inl pn);
       EvWaitForPrivateNIC (nic_request nicID) (nic, Some e)] (Some e)
| attach_done pn nic mac err :
    let nicID := PrivateNIC.ID (CreatePrivateNICResponse.PrivateNic pn) in
    attach_log id
      [EvCreatePrivateNIC (create_request id) (inl pn);
       EvWaitForPrivateNIC (nic_request nicID) (nic, None);
       EvWaitForMACAddress (mac_request nicID) (mac, err)] err.

(** The logs that [detach] can leave when it finds the NIC [p], with the
    error returned. *)
Inductive detach_log (p : PrivateNIC.t) : list Event → option error → Prop :=
| detach_wait_failed nic e :
    detach_log p
      [EvWaitForPrivateNIC (nic_request (expandID (PrivateNIC.ID p)))
         (nic, Some e)] (Some e)
| detach_done nic err :
    detach_log p
      [EvWaitForPrivateNIC (nic_request (expandID (PrivateNIC.ID p)))
         (nic, None);
       EvDeletePrivateNIC (delete_request (expandID (PrivateNIC.ID p))) err]
      err.

End attachDetachLogs.

(** The three states between which [reachState] knows its way. *)
Definition stable_states `{sdk : SDK} : list instance.ServerState :=
  [ServerStateStopped; ServerStateStoppedInPlace; ServerStateRunning].

(** The action that puts a server into the stable state [toState]. *)
Definition action_reaching `{sdk : SDK} (toState : instance.ServerState)
  : instance.ServerAction :=
  if decide (toState = ServerStateRunning) then ServerActionPoweron
  else if decide (toState = ServerStateStopped) then ServerActionPoweroff
  else ServerActionStopInPlace.


(** The string under "pn_id" in an entry given to [preparePrivateNIC]. *)
Definition pn_id_of (r : gmap string interface) : option string :=
  match r !! "pn_id" with
  | Some (interface_string zonedID) => Some zonedID
  | _ => None
  end.

(** Among the NICs listed, the last one on the private network [id]. *)
Definition last_on_network (nics : list PrivateNIC.t) (id : string)
  : option PrivateNIC.t :=
  last (filter (λ p, PrivateNIC.PrivateNetworkID p = id) nics).

(** The slice [acc] after [responses] have been appended to it one by one:
    a nil slice stays nil as long as nothing is appended. *)
Definition appended {A} (acc : option (list A)) (responses : list A)
  : option (list A) :=
  match responses with
  | [] => acc
  | _ => Some (default [] acc ++ responses)
  end.

(** ** More concrete worlds *)

Module MoreExamples.

#[local] Existing Instance sdk_v1.

(** What precedes the first "/" of [s]. *)
Fixpoint before_slash (s : string) : string :=
  match s with
  | EmptyString => EmptyString
  | String c s =>
      if decide (c = "/"%char) then EmptyString else String c (before_slash s)
  end.

(** A [parseZonedID], which serves as a [parseLocalizedID] too: the locality
    and the ID on either side of the first "/", and an error when there is
    no "/". *)
Definition parseZonedID (s : string) : string * string * option error :=
  match Examples.after_slash s with
  | Some id => (before_slash s, id, None)
  | None => ("", "", Some (errorString ("cannot parse ID: " +:+ s)))
  end.

(** The text of an error. *)
Fixpoint Error (err : error) : string :=
  match err with
  | errorString msg => msg
  | InvalidArgumentsError _ => "invalid argument(s)"
  | wrapError msg err => msg +:+ ": " +:+ Error err
  end.

Definition snapshot_of (id : string) : GetSnapshotResponse.t :=
  {| GetSnapshotResponse.Snapshot :=
       {| Snapshot.ID := id;
          Snapshot.BaseVolume :=
            {| SnapshotBaseVolume.ID := "vol-1";
               SnapshotBaseVolume.Name := "data" |};
          Snapshot.Size := 20000000000%Z;
          Snapshot.VolumeType := "b_ssd" |} |}.

Definition nic_1 : PrivateNIC.t :=
  {| PrivateNIC.ID := "nic-1";
     PrivateNIC.PrivateNetworkID := "pn-1";
     PrivateNIC.MacAddress := "02:00:00:00:00:01";
     PrivateNIC.State := "available" |}.

Definition nic_2 : PrivateNIC.t :=
  {| PrivateNIC.ID := "nic-2";
     PrivateNIC.PrivateNetworkID := "pn-1";
     PrivateNIC.MacAddress := "02:00:00:00:00:02";
     PrivateNIC.State := "syncing" |}.

Definition nic_3 : PrivateNIC.t :=
  {| PrivateNIC.ID := "nic-3";
     PrivateNIC.PrivateNetworkID := "pn-2";
     PrivateNIC.MacAddress := "02:00:00:00:00:03";
     PrivateNIC.State := "available" |}.

Definition nics : list PrivateNIC.t := [nic_1; nic_2; nic_3].

(** A service that never changes the world: every snapshot is found but
    "missing", three NICs are listed, and "DEV1-S" is the one server type. *)
Definition more_api : MoreAPI unit := {|
  GetSnapshot := λ req w,
    (if decide (GetSnapshotRequest.SnapshotID req = "missing")
     then inr (errorString "not found")
     else inl (snapshot_of (GetSnapshotRequest.SnapshotID req)), w);
  ListPrivateNICs := λ _ w,
    (inl {| ListPrivateNICsResponse.PrivateNics := nics |}, w);
  GetServerType := λ req w,
    ((if decide (GetServerTypeRequest.Name req = "DEV1-S")
      then Some Examples.server_type_10_20 else None, None), w);
|}.

(** A service on which every private network exists but "missing". *)
Definition vpc_api : vpcAPI unit := {|
  GetPrivateNetwork := λ req w,
    (if decide (vpc.GetPrivateNetworkRequest.PrivateNetworkID req = "missing")
     then inr (errorString "no such network")
     else inl {| vpc.PrivateNetwork.ID :=
                   vpc.GetPrivateNetworkRequest.PrivateNetworkID req;
                 vpc.PrivateNetwork.Zone :=
                   vpc.GetPrivateNetworkRequest.Zone req |}, w);
|}.

(** Another order of [range]: that of [Examples.map_range], backwards. *)
Definition map_range_rev (A : Type) (m : gmap string A)
  : list (string * A) :=
  reverse (map_to_list m).

(** Two volumes under the keys "0" and "1". *)
Definition two_volumes : gmap string (option string) :=
  {[ "0" := Some "vol-a"; "1" := Some "vol-b" ]}.

(** A block volume of 50 GB. *)
Definition block_volume : VolumeServerTemplate.t :=
  {| VolumeServerTemplate.ID := None;
     VolumeServerTemplate.Boot := None;
     VolumeServerTemplate.Name := None;
     VolumeServerTemplate.Size := Some 50000000000%Z;
     VolumeServerTemplate.VolumeType := "b_ssd" |}.

(** An entry given to [preparePrivateNIC]. *)
Definition nic_entry (zonedID : string) : gmap string interface :=
  {[ "pn_id" := interface_string zonedID ]}.

End MoreExamples.

(** * Theorems *)

(** ** Running a computation *)

Section MonadFacts.
Context `{sdk : SDK} {W : Type}.

Lemma bind_inv {A B} (m : M W A) (f : A → M W B) w b w2 log :
  (m ≫= f) w = (b, w2, log) →
  ∃ a w1 l1 l2, m w = (a, w1, l1) ∧ f a w1 = (b, w2, l2) ∧ log = l1 ++ l2.
Proof.
  unfold mbind, M_bind. destruct (m w) as [[a w1] l1].
  destruct (f a w1) as [[b' w2'] l2] eqn:E. intros [= <- <- <-].
  by exists a, w1, l1, l2.
Qed.

Lemma call_inv {A} (h : W → A * W) (ev : A → Event) w a w' log :
  call h ev w = (a, w', log) → h w = (a, w') ∧ log = [ev a].
Proof. unfold call. destruct (h w) as [a' w1]. by intros [= <- <- <-]. Qed.

Lemma ret_inv {A} (a : A) (w : W) r w' log :
  ret a w = (r, w', log) → r = a ∧ w' = w ∧ log = [].
Proof. by intros [= <- <- <-]. Qed.

End MonadFacts.

(** Take a run apart into the calls it made. *)
Ltac inv_run :=
  repeat match goal with
    | H : (_ ≫= _) _ = (_, _, _) |- _ =>
        destruct (bind_inv _ _ _ _ _ _ H) as (? & ? & ? & ? & ? & ? & ?);
        clear H; simplify_eq; cbv beta in *
    | H : call _ _ _ = (_, _, _) |- _ =>
        destruct (call_inv _ _ _ _ _ _ H) as [? ?]; clear H; simplify_eq
    | H : ret _ _ = (_, _, _) |- _ =>
        destruct (ret_inv _ _ _ _ _ H) as (? & ? & ?); clear H; simplify_eq
    | H : (match ?x with _ => _ end) _ = (_, _, _) |- _ => destruct x
    end.

(** Find which call of a log an event is. *)
Ltac elem_of_log H :=
  repeat (rewrite ?elem_of_app, ?elem_of_cons, ?elem_of_nil in H);
  repeat match type of H with
         | _ ∨ _ => destruct H as [H | H]
         | False => destruct H
         end;
  simplify_eq/=.

Section ServerStateFacts.
Context `{sdk : SDK}.
Hypothesis Hdistinct : distinct_states.

Lemma distinct_states_ne :
  ServerStateStopped ≠ ServerStateStoppedInPlace ∧
  ServerStateStopped ≠ ServerStateRunning ∧
  ServerStateStopped ≠ ServerStateLocked ∧
  ServerStateStoppedInPlace ≠ ServerStateRunning ∧
  ServerStateStoppedInPlace ≠ ServerStateLocked ∧
  ServerStateRunning ≠ ServerStateLocked.
Proof.
  unfold distinct_states in Hdistinct.
  repeat match goal with
         | Hn : NoDup (_ :: _) |- _ => apply NoDup_cons in Hn; destruct Hn
         end.
  set_solver.
Qed.

Lemma serverStateExpand_stopped :
  serverStateExpand "stopped" = (ServerStateStopped, None).
Proof. reflexivity. Qed.

Lemma serverStateExpand_standby :
  serverStateExpand "standby" = (ServerStateStoppedInPlace, None).
Proof. reflexivity. Qed.

Lemma serverStateExpand_started :
  serverStateExpand "started" = (ServerStateRunning, None).
Proof. reflexivity. Qed.

(** C2: the translation between API states and terraform states is a round
    trip.  For each of the API states Stopped, StoppedInPlace and Running,
    [serverStateFlatten] succeeds and [serverStateExpand] of its result
    succeeds and gives the state back; for each of the terraform states
    "stopped", "standby" and "started", [serverStateExpand] succeeds and
    [serverStateFlatten] of its result succeeds and gives the string back. *)
Theorem serverState_round_trip :
  (∀ s : instance.ServerState,
      s ∈ [ServerStateStopped; ServerStateStoppedInPlace; ServerStateRunning] →
      ∃ t, serverStateFlatten s = (t, None) ∧ serverStateExpand t = (s, None)) ∧
  (∀ t : string,
      t ∈ ["stopped"; "standby"; "started"] →
      ∃ s, serverStateExpand t = (s, None) ∧ serverStateFlatten s = (t, None)).
Proof.
  destruct distinct_states_ne as (H1 & H2 & H3 & H4 & H5 & H6).
  split.
  - intros s Hs. unfold serverStateFlatten.
    repeat (apply elem_of_cons in Hs; destruct Hs as [-> | Hs]);
      [ | | | by apply elem_of_nil in Hs ];
      repeat case_decide; try congruence; eexists; split; reflexivity.
  - intros t Ht.
    repeat (apply elem_of_cons in Ht; destruct Ht as [-> | Ht]);
      [ | | | by apply elem_of_nil in Ht ];
      (eexists; split; [ reflexivity | ]);
      unfold serverStateFlatten; repeat case_decide;
      first [ reflexivity | congruence ].
Qed.

(** C4: [serverStateFlatten] returns an error exactly for the API states other
    than Stopped, StoppedInPlace and Running; for Locked it returns an error
    together with the empty terraform state.  [serverStateExpand] returns an
    error exactly for the strings other than "stopped", "standby" and
    "started". *)
Theorem serverState_error_iff :
  (∀ s : instance.ServerState,
      is_Some (serverStateFlatten s).2 ↔
      s ∉ [ServerStateStopped; ServerStateStoppedInPlace; ServerStateRunning]) ∧
  ((serverStateFlatten ServerStateLocked).1 = "" ∧
   is_Some (serverStateFlatten ServerStateLocked).2) ∧
  (∀ t : string,
      is_Some (serverStateExpand t).2 ↔ t ∉ ["stopped"; "standby"; "started"]).
Proof.
  destruct distinct_states_ne as (H1 & H2 & H3 & H4 & H5 & H6).
  split; [ | split ].
  - intros s. unfold serverStateFlatten. rewrite !not_elem_of_cons.
    repeat case_decide; simpl; split; intros Hs;
      solve [ by apply is_Some_None in Hs
            | destruct Hs as (? & ? & ? & _); congruence
            | repeat split; try assumption; apply not_elem_of_nil
            | done ].
  - unfold serverStateFlatten.
    repeat case_decide; try congruence; simpl; done.
  - intros t. unfold serverStateExpand, serverStateExpand_table.
    rewrite !not_elem_of_cons.
    destruct (decide (t = "stopped")) as [-> | Ht1];
      [ simpl; split; [ intros [e He]; discriminate | intros (? & _); congruence ] | ].
    destruct (decide (t = "standby")) as [-> | Ht2];
      [ simpl; split; [ intros [e He]; discriminate | intros (_ & ? & _); congruence ] | ].
    destruct (decide (t = "started")) as [-> | Ht3];
      [ simpl; split; [ intros [e He]; discriminate | intros (_ & _ & ? & _); congruence ] | ].
    unfold InstanceServerStateStopped, InstanceServerStateStandby,
      InstanceServerStateStarted.
    rewrite !lookup_insert_ne by congruence. rewrite lookup_empty. simpl.
    split; [ intros _; repeat split; try assumption; apply not_elem_of_nil | done ].
Qed.

End ServerStateFacts.

(** The SDK's constants satisfy the distinctness assumption. *)
Lemma sdk_v1_distinct : @distinct_states sdk_v1.
Proof. unfold distinct_states. simpl. apply (bool_decide_unpack _). vm_compute. exact I. Qed.

(** ** [reachState] *)

Section reachStateFacts.
Context `{sdk : SDK} {W : Type}.
Variable DefaultWaitRetryInterval : option time.Duration.
Variable instanceAPI : API W.
Variable zone : scw.Zone.
Variable serverID : string.
Hypothesis Hdistinct : distinct_states.

Abbreviation waitVolumes :=
  (reachState_waitVolumes DefaultWaitRetryInterval instanceAPI zone).
Abbreviation doActions :=
  (reachState_doActions DefaultWaitRetryInterval instanceAPI zone serverID).
Abbreviation actionRequest :=
  (reachState_actionRequest DefaultWaitRetryInterval zone serverID).

Lemma transitionMap_lookup_table from to actions :
  (from, to, actions) ∈ transition_table →
  transitionMap !! (from, to) = Some actions.
Proof.
  destruct (distinct_states_ne Hdistinct) as (H1 & H2 & H3 & H4 & H5 & H6).
  unfold transition_table, transitionMap. intros Hin.
  repeat (apply elem_of_cons in Hin; destruct Hin as [[= -> -> ->] | Hin]);
    [ | | | | | | by apply elem_of_nil in Hin ];
    repeat (rewrite lookup_insert_ne by (intros [=]; congruence));
    apply lookup_insert_eq.
Qed.


Lemma power_actions_app (l1 l2 : list Event) :
  power_actions (l1 ++ l2) = power_actions l1 ++ power_actions l2.
Proof. apply omap_app. Qed.

Lemma stops_at_first_error_nil : stops_at_first_error [].
Proof. intros l1 ev l2 E. by destruct l1. Qed.

Lemma stops_at_first_error_singleton ev : stops_at_first_error [ev].
Proof.
  intros l1 ev' l2 E Hne. destruct l1 as [|? [|? ?]]; by simplify_eq/=.
Qed.

Lemma stops_at_first_error_cons ev log :
  event_error ev = None → stops_at_first_error log →
  stops_at_first_error (ev :: log).
Proof.
  intros Hev Hlog l1 ev' l2 E Hne. destruct l1 as [|? l1]; simplify_eq/=;
    [ done | by eapply Hlog ].
Qed.

Lemma last_error_cons ev log :
  log ≠ [] → last_error (ev :: log) = last_error log.
Proof. unfold last_error. destruct log; [ done | reflexivity ]. Qed.




Lemma reachState_waitVolumes_spec volumes w err w' log :
  waitVolumes volumes w = (err, w', log) →
  power_actions log = [] ∧ stops_at_first_error log ∧ err = last_error log.
Proof.
  revert w err w' log. induction volumes as [|volume volumes IH];
    intros w err w' log Hrun; simpl in Hrun.
  - injection Hrun as <- <- <-. split_and!; [ done | | done ].
    apply stops_at_first_error_nil.
  - case_decide; [ | by eapply IH ].
    unfold mbind, M_bind, call in Hrun.
    destruct (WaitForVolume _ _ w) as [[v [e|]] w1]; simpl in Hrun.
    + injection Hrun as <- <- <-. split_and!; [ done | | done ].
      apply stops_at_first_error_singleton.
    + destruct (waitVolumes volumes w1) as [[err2 w2] l2] eqn:E2.
      injection Hrun as <- <- <-.
      destruct (IH _ _ _ _ E2) as (Hp & Hs & He). split_and!.
      * done.
      * by apply stops_at_first_error_cons.
      * destruct l2 as [|ev l2]; [ done | ].
        by rewrite last_error_cons.
Qed.

Lemma reachState_doActions_spec actions w err w' log :
  doActions actions w = (err, w', log) →
  power_actions log `prefix_of` (actionRequest <$> actions) ∧
  stops_at_first_error log ∧ err = last_error log ∧
  (err = None → power_actions log = actionRequest <$> actions).
Proof.
  revert w err w' log. induction actions as [|a actions IH];
    intros w err w' log Hrun; simpl in Hrun.
  - injection Hrun as <- <- <-. split_and!; try done.
    apply stops_at_first_error_nil.
  - unfold mbind, M_bind, call in Hrun.
    destruct (ServerActionAndWait _ _ w) as [[e|] w1]; simpl in Hrun.
    + injection Hrun as <- <- <-. split_and!; try done.
      * simpl. apply prefix_cons, prefix_nil.
      * apply stops_at_first_error_singleton.
    + destruct (doActions actions w1) as [[err2 w2] l2] eqn:E2.
      injection Hrun as <- <- <-.
      destruct (IH _ _ _ _ E2) as (Hp & Hs & He & Hall). split_and!.
      * simpl. by apply prefix_cons.
      * by apply stops_at_first_error_cons.
      * destruct l2 as [|ev l2]; [ done | ].
        by rewrite last_error_cons.
      * intros Hnone. simpl. f_equal. by apply Hall.
Qed.

(** When [GetServer] fails, its error is returned and nothing else is
    called. *)
Lemma reachState_GetServer_error toState w err w1 :
  let req := {| GetServerRequest.Zone := zone;
                GetServerRequest.ServerID := serverID |} in
  GetServer instanceAPI req w = (inr err, w1) →
  reachState DefaultWaitRetryInterval instanceAPI zone serverID toState w
  = (Some err, w1, [EvGetServer req (inr err)]).
Proof.
  intros req Hget. unfold reachState, mbind, M_bind, call. fold req.
  by rewrite Hget.
Qed.


End reachStateFacts.

(** ** Helpers on volume maps *)

Section VolumeMapFacts.
Context `{sdk : SDK}.
Variable range : ∀ A : Type, gmap string A → list (string * A).
Hypothesis range_Permutation :
  ∀ A (m : gmap string A), range A m ≡ₚ map_to_list m.

Lemma foldl_snoc_fst {A} (l : list (string * A)) (acc : list string) :
  foldl (λ indexes '(index, _), indexes ++ [index]) acc l = acc ++ l.*1.
Proof.
  revert acc. induction l as [|[k x] l IH]; intros acc; simpl.
  - by rewrite app_nil_r.
  - rewrite IH. by rewrite <- app_assoc.
Qed.

Lemma foldl_snoc_fmap {A B} (f : A → B) (l : list A) (acc : list B) :
  foldl (λ acc x, acc ++ [f x]) acc l = acc ++ (f <$> l).
Proof.
  revert acc. induction l as [|x l IH]; intros acc; simpl.
  - by rewrite app_nil_r.
  - rewrite IH. by rewrite <- app_assoc.
Qed.

Lemma sort_Strings_range {A} (v : gmap string A) :
  sorted_keys v (sort.Strings (range A v).*1).
Proof.
  assert (sort.Strings (range A v).*1 ≡ₚ (map_to_list v).*1) as Hperm.
  { unfold sort.Strings. rewrite merge_sort_Permutation.
    by rewrite range_Permutation. }
  split_and!.
  - done.
  - rewrite Hperm. apply NoDup_fst_map_to_list.
  - apply (StronglySorted_merge_sort _).
Qed.

(** Indexing [v] along a permutation of its keys gives its values: each
    key finds its value, and no value is dropped or taken twice. *)
Lemma map_index_keys {A} (v : gmap string (option A)) (keys : list string) :
  keys ≡ₚ (map_to_list v).*1 →
  Forall2 (λ k x, v !! k = Some x) keys (map_index v <$> keys) ∧
  length (map_index v <$> keys) = size v ∧
  map_index v <$> keys ≡ₚ (map_to_list v).*2.
Proof.
  intros Hperm. split_and!.
  - apply Forall2_fmap_r, Forall_Forall2_diag, Forall_forall.
    intros k Hk. rewrite Hperm in Hk.
    apply list_elem_of_fmap in Hk as ([k' x] & -> & Hin).
    apply elem_of_map_to_list in Hin. simpl. unfold map_index.
    by rewrite Hin.
  - rewrite length_fmap, Hperm, length_fmap. apply length_map_to_list.
  - rewrite Hperm. rewrite <- list_fmap_compose.
    apply reflexive_eq, list_fmap_ext.
    intros _ [k x] Hin%list_elem_of_lookup_2%elem_of_map_to_list.
    simpl. unfold map_index. by rewrite Hin.
Qed.

(** C6: [orderVolumes], and likewise [sortVolumeServer], returns the values
    of the map arranged in the order of the map's keys sorted as strings:
    there is a list [keys], a duplicate-free sorted arrangement of the keys of
    the map, such that the result holds at each position the value stored
    under the key at that position.  The result is as long as the map is
    large, and it is a rearrangement of the map's values, so that no value is
    dropped or duplicated. *)
Theorem orderVolumes_sorted_by_key :
  (∀ v : gmap string (option Volume),
     ∃ keys, sorted_keys v keys ∧
       Forall2 (λ k x, v !! k = Some x) keys (orderVolumes range v) ∧
       length (orderVolumes range v) = size v ∧
       orderVolumes range v ≡ₚ (map_to_list v).*2) ∧
  (∀ v : gmap string (option VolumeServer.t),
     ∃ keys, sorted_keys v keys ∧
       Forall2 (λ k x, v !! k = Some x) keys (sortVolumeServer range v) ∧
       length (sortVolumeServer range v) = size v ∧
       sortVolumeServer range v ≡ₚ (map_to_list v).*2).
Proof.
  split; intros v; exists (sort.Strings (range _ v).*1);
    (split; [ apply sort_Strings_range | ]).
  - unfold orderVolumes. rewrite foldl_snoc_fst, foldl_snoc_fmap. simpl.
    apply map_index_keys, sort_Strings_range.
  - unfold sortVolumeServer. rewrite foldl_snoc_fst, foldl_snoc_fmap. simpl.
    apply map_index_keys, sort_Strings_range.
Qed.

Lemma range_NoDup {A} (m : gmap string A) : NoDup (range A m).*1.
Proof. rewrite range_Permutation. apply NoDup_fst_map_to_list. Qed.

Lemma list_to_map_range {A} (m : gmap string A) :
  list_to_map (range A m) = m.
Proof.
  rewrite <- (list_to_map_to_list m) at 2.
  apply list_to_map_proper; [ apply range_NoDup | apply range_Permutation ].
Qed.

Lemma foldl_insert_lookup {A B} (f : string → A → B)
    (l : list (string * A)) (m0 : gmap string B) (k : string) :
  NoDup l.*1 →
  foldl (λ m '(index, v), <[index := f index v]> m) m0 l !! k =
  match (list_to_map l : gmap string A) !! k with
  | Some v => Some (f k v)
  | None => m0 !! k
  end.
Proof.
  revert m0. induction l as [|[i x] l IH]; intros m0 Hnodup; simpl.
  - by rewrite lookup_empty.
  - apply NoDup_cons in Hnodup as [Hi Hnodup]. rewrite IH by done.
    destruct (decide (i = k)) as [-> | Hne].
    + rewrite lookup_insert_eq.
      rewrite (proj1 (not_elem_of_list_to_map l k)) by done.
      by rewrite lookup_insert_eq.
    + rewrite (lookup_insert_ne (list_to_map l)) by done.
      destruct (list_to_map l !! k); [ done | ].
      by rewrite lookup_insert_ne.
Qed.

Lemma sanitizeVolumeMap_lookup volumes index :
  sanitizeVolumeMap range volumes !! index
  = sanitizeVolume index <$> volumes !! index.
Proof.
  unfold sanitizeVolumeMap.
  rewrite (foldl_insert_lookup sanitizeVolume) by apply range_NoDup.
  rewrite list_to_map_range, lookup_empty. by destruct (volumes !! index).
Qed.

(** C5: [sanitizeVolumeMap] returns a map with the keys of its input.  An
    entry whose ID is not nil keeps its ID, Name and Boot and loses the rest
    (VolumeType and Size); the entry at key "0" whose ID and Size are nil
    keeps its VolumeType and Boot and loses the rest; every other entry is
    unchanged. *)
Theorem sanitizeVolumeMap_spec volumes :
  dom (sanitizeVolumeMap range volumes) = dom volumes ∧
  ∀ index v,
    volumes !! index = Some v →
    ∃ v', sanitizeVolumeMap range volumes !! index = Some v' ∧
      (VolumeServerTemplate.ID v ≠ None →
         v' = {| VolumeServerTemplate.ID := VolumeServerTemplate.ID v;
                 VolumeServerTemplate.Name := VolumeServerTemplate.Name v;
                 VolumeServerTemplate.Boot := VolumeServerTemplate.Boot v;
                 VolumeServerTemplate.Size := None;
                 VolumeServerTemplate.VolumeType := "" |}) ∧
      (VolumeServerTemplate.ID v = None → index = "0" →
       VolumeServerTemplate.Size v = None →
         v' = {| VolumeServerTemplate.ID := None;
                 VolumeServerTemplate.Name := None;
                 VolumeServerTemplate.Boot := VolumeServerTemplate.Boot v;
                 VolumeServerTemplate.Size := None;
                 VolumeServerTemplate.VolumeType :=
                   VolumeServerTemplate.VolumeType v |}) ∧
      (VolumeServerTemplate.ID v = None →
       ¬ (index = "0" ∧ VolumeServerTemplate.Size v = None) →
         v' = v).
Proof.
  split.
  - apply set_eq. intros index. rewrite !elem_of_dom.
    rewrite sanitizeVolumeMap_lookup. by rewrite fmap_is_Some.
  - intros index v Hv. exists (sanitizeVolume index v).
    rewrite sanitizeVolumeMap_lookup, Hv. split; [ done | ].
    unfold sanitizeVolume. split_and!.
    + intros HID. by rewrite decide_True.
    + intros HID -> HSize. rewrite decide_False by (by rewrite HID; intros ?).
      by rewrite decide_True.
    + intros HID Hother. rewrite decide_False by (by rewrite HID; intros ?).
      by rewrite decide_False.
Qed.

Lemma Z_sum_cons (x : Z) (l : list Z) : Z_sum (x :: l) = (x + Z_sum l)%Z.
Proof. reflexivity. Qed.

Lemma Z_sum_Permutation (l1 l2 : list Z) : l1 ≡ₚ l2 → Z_sum l1 = Z_sum l2.
Proof.
  unfold Z_sum.
  induction 1 as [|x l1 l2 _ IH|x y l|l1 l2 l3 _ IH1 _ IH2]; simpl;
    first [ congruence | lia ].
Qed.

Lemma validateLocalVolumeSizes_loop (l : list (string * VolumeServerTemplate.t))
    (acc : Z) :
  (0 ≤ acc < 2 ^ 64)%Z →
  let total :=
    foldl (λ localVolumeTotalSize '(_, volume),
             if decide (VolumeServerTemplate.VolumeType volume
                        = VolumeVolumeTypeLSSD)
             then
               match VolumeServerTemplate.Size volume with
               | Some size => uint64_add localVolumeTotalSize size
               | None => localVolumeTotalSize
               end
             else localVolumeTotalSize) acc l in
  (0 ≤ total < 2 ^ 64)%Z ∧
  total = ((acc + Z_sum (local_volume_size <$> l.*2)) mod 2 ^ 64)%Z.
Proof.
  revert acc. induction l as [|[k volume] l IH]; intros acc Hacc.
  - simpl. split; [ done | ]. rewrite Z.add_0_r. by rewrite Z.mod_small.
  - rewrite !fmap_cons, Z_sum_cons. cbn [foldl snd].
    unfold local_volume_size at 1.
    case_decide as HT;
      [ destruct (VolumeServerTemplate.Size volume) as [size|] | ]; simpl.
    + destruct (IH (uint64_add acc size)) as [Hrange Heq].
      { unfold uint64_add. apply Z.mod_pos_bound. lia. }
      split; [ done | ]. rewrite Heq. unfold uint64_add.
      rewrite Zplus_mod_idemp_l. f_equal. lia.
    + destruct (IH acc Hacc) as [Hrange Heq]. split; [ done | ].
      rewrite Heq. f_equal.
    + destruct (IH acc Hacc) as [Hrange Heq]. split; [ done | ].
      rewrite Heq. f_equal.
Qed.

(** What [validateLocalVolumeSizes] computes, overflow included: the total
    is taken modulo 2^64. *)
Lemma validateLocalVolumeSizes_wraps humanize_Bytes volumes serverType
    commercialType :
  let MinSize := ServerTypeVolumeConstraintSizes.MinSize
                   (ServerType.VolumesConstraint serverType) in
  let MaxSize := ServerTypeVolumeConstraintSizes.MaxSize
                   (ServerType.VolumesConstraint serverType) in
  let total := (local_volumes_total volumes MinSize mod 2 ^ 64)%Z in
  validateLocalVolumeSizes range humanize_Bytes volumes serverType
    commercialType =
  if decide (MinSize ≤ total ≤ MaxSize)%Z then None
  else Some (fmt.Errorf
    (commercialType +:+
     (if decide (MinSize = MaxSize)
      then " total local volume size must be equal to " +:+
           humanize_Bytes MinSize
      else " total local volume size must be between " +:+
           humanize_Bytes MinSize +:+ " and " +:+ humanize_Bytes MaxSize))).
Proof.
  intros MinSize MaxSize total. unfold validateLocalVolumeSizes.
  fold MinSize MaxSize.
  destruct (validateLocalVolumeSizes_loop (range _ volumes) 0) as [Hrange Heq];
    [ lia | ].
  simpl in Hrange, Heq. rewrite Heq. clear Hrange Heq.
  assert (Z_sum (local_volume_size <$> (range _ volumes).*2)
          = Z_sum (local_volume_size <$> (map_to_list volumes).*2)) as ->.
  { apply Z_sum_Permutation. by rewrite range_Permutation. }
  set (code_total := match volumes !! "0" with
                     | None => uint64_add _ MinSize
                     | Some _ => _
                     end).
  assert (code_total = total) as ->.
  { unfold code_total, total, local_volumes_total, uint64_add.
    destruct (volumes !! "0");
      [ by rewrite Z.add_0_r | by rewrite Zplus_mod_idemp_l ]. }
  destruct (decide (MinSize ≤ total ≤ MaxSize)%Z) as [Hin | Hout].
  - assert ((total <? MinSize)%Z = false) as -> by lia.
    assert ((total >? MaxSize)%Z = false) as -> by lia. done.
  - assert (((total <? MinSize)%Z || (total >? MaxSize)%Z) = true) as ->.
    { apply orb_true_iff. lia. }
    destruct (decide (MinSize = MaxSize)) as [Heq | Hne].
    + assert ((MinSize =? MaxSize)%Z = true) as -> by lia. done.
    + assert ((MinSize =? MaxSize)%Z = false) as -> by lia.
      done.
Qed.

(** C9, as amended: when the total (the sum of the sizes of the volumes of
    type LSSD with a size, plus the minimum size when no volume is at key
    "0") fits in an unsigned 64-bit integer, [validateLocalVolumeSizes]
    returns nil exactly when the total lies within [MinSize, MaxSize], bounds
    included.  Otherwise it returns an error whose message starts with the
    commercial type, followed by the "equal to" wording when MinSize equals
    MaxSize and by the "between" wording when they differ. *)
Theorem validateLocalVolumeSizes_spec humanize_Bytes volumes serverType
    commercialType :
  let MinSize := ServerTypeVolumeConstraintSizes.MinSize
                   (ServerType.VolumesConstraint serverType) in
  let MaxSize := ServerTypeVolumeConstraintSizes.MaxSize
                   (ServerType.VolumesConstraint serverType) in
  let total := local_volumes_total volumes MinSize in
  let result := validateLocalVolumeSizes range humanize_Bytes volumes
                  serverType commercialType in
  (0 ≤ total < 2 ^ 64)%Z →
  (result = None ↔ (MinSize ≤ total ≤ MaxSize)%Z) ∧
  (¬ (MinSize ≤ total ≤ MaxSize)%Z → MinSize = MaxSize →
     result = Some (fmt.Errorf
       (commercialType +:+ " total local volume size must be equal to " +:+
        humanize_Bytes MinSize))) ∧
  (¬ (MinSize ≤ total ≤ MaxSize)%Z → MinSize ≠ MaxSize →
     result = Some (fmt.Errorf
       (commercialType +:+ " total local volume size must be between " +:+
        humanize_Bytes MinSize +:+ " and " +:+ humanize_Bytes MaxSize))).
Proof.
  intros MinSize MaxSize total result Hfits. unfold result.
  rewrite validateLocalVolumeSizes_wraps. fold MinSize MaxSize total.
  rewrite (Z.mod_small total) by done.
  split_and!.
  - by case_decide.
  - intros Hout Heq. rewrite decide_False by done. by rewrite decide_True.
  - intros Hout Hne. rewrite decide_False by done. by rewrite decide_False.
Qed.

End VolumeMapFacts.

(** ** Image templates *)

Example Itoa_1 : strconv.Itoa 1 = "1".
Proof. reflexivity. Qed.

Example Itoa_12 : strconv.Itoa 12 = "12".
Proof. reflexivity. Qed.

Lemma Itoa_inj i j : strconv.Itoa i = strconv.Itoa j → i = j.
Proof. apply pretty_Z_inj. Qed.

(** The template made from a snapshot. *)
Abbreviation template_of snapshot :=
  {| VolumeTemplate.ID := Snapshot.ID (GetSnapshotResponse.Snapshot snapshot);
     VolumeTemplate.Name :=
       SnapshotBaseVolume.Name
         (Snapshot.BaseVolume (GetSnapshotResponse.Snapshot snapshot));
     VolumeTemplate.Size :=
       Snapshot.Size (GetSnapshotResponse.Snapshot snapshot);
     VolumeTemplate.VolumeType :=
       Snapshot.VolumeType (GetSnapshotResponse.Snapshot snapshot) |}.

Lemma expand_loop_is_Some i snapshots m key :
  is_Some (expandInstanceImageExtraVolumesTemplates_loop i snapshots m !! key) →
  is_Some (m !! key) ∨
  ∃ j, j < length snapshots ∧ key = strconv.Itoa (Z.of_nat (i + j) + 1).
Proof.
  revert i m. induction snapshots as [|snapshot snapshots IH]; intros i m;
    simpl; [ by left | ].
  intros [Hm | (j & Hj & ->)]%IH.
  - apply lookup_insert_is_Some in Hm as [<- | [_ Hm]]; [ right | by left ].
    exists 0. split; [ lia | ]. by rewrite Nat.add_0_r.
  - right. exists (S j). split; [ lia | ]. do 2 f_equal. lia.
Qed.

Lemma expand_loop_lookup_other i snapshots m key :
  (∀ j, j < length snapshots → key ≠ strconv.Itoa (Z.of_nat (i + j) + 1)) →
  expandInstanceImageExtraVolumesTemplates_loop i snapshots m !! key = m !! key.
Proof.
  revert i m. induction snapshots as [|snapshot snapshots IH]; intros i m Hkey;
    simpl; [ done | ].
  rewrite IH.
  - apply lookup_insert_ne. intros <-. apply (Hkey 0); [ simpl; lia | ].
    by rewrite Nat.add_0_r.
  - intros j Hj ->. apply (Hkey (S j)); [ simpl; lia | ].
    do 2 f_equal. lia.
Qed.

Lemma expand_loop_lookup i snapshots m j snapshot :
  snapshots !! j = Some snapshot →
  expandInstanceImageExtraVolumesTemplates_loop i snapshots m
    !! strconv.Itoa (Z.of_nat (i + j) + 1)
  = Some (template_of snapshot).
Proof.
  revert i m j. induction snapshots as [|s snapshots IH]; intros i m j Hj;
    [ done | ].
  destruct j as [|j]; simpl in *.
  - injection Hj as ->. rewrite expand_loop_lookup_other.
    + rewrite Nat.add_0_r. apply lookup_insert_eq.
    + intros j Hj E%Itoa_inj. lia.
  - replace (Z.of_nat (i + S j)) with (Z.of_nat (S i + j)) by lia.
    by apply IH.
Qed.

Lemma expand_loop_size i snapshots m :
  (∀ j, j < length snapshots →
        m !! strconv.Itoa (Z.of_nat (i + j) + 1) = None) →
  size (expandInstanceImageExtraVolumesTemplates_loop i snapshots m)
  = size m + length snapshots.
Proof.
  revert i m. induction snapshots as [|s snapshots IH]; intros i m Hfresh;
    simpl; [ lia | ].
  rewrite IH.
  - rewrite map_size_insert_None; [ lia | ].
    specialize (Hfresh 0). rewrite Nat.add_0_r in Hfresh.
    apply Hfresh. simpl. lia.
  - intros j Hj. rewrite lookup_insert_ne.
    + replace (Z.of_nat (S i + j)) with (Z.of_nat (i + S j)) by lia.
      apply Hfresh. simpl. lia.
    + intros E%Itoa_inj. lia.
Qed.

(** C10: [expandInstanceImageExtraVolumesTemplates] always returns a map
    that is not nil.  For a nil list the map is empty.  For a list of n
    snapshots the keys are exactly the decimal strings of 1, ..., n; "0" is
    not a key; there are n entries; and the template at the key of i+1
    copies the ID, the name of the base volume, the size and the volume type
    of the i-th snapshot. *)
Theorem expandInstanceImageExtraVolumesTemplates_spec :
  expandInstanceImageExtraVolumesTemplates None = Some ∅ ∧
  ∀ snapshots : list GetSnapshotResponse.t,
    ∃ volTemplates,
      expandInstanceImageExtraVolumesTemplates (Some snapshots)
        = Some volTemplates ∧
      (∀ key, is_Some (volTemplates !! key) ↔
              ∃ k, (1 ≤ k ≤ Z.of_nat (length snapshots))%Z ∧
                   key = strconv.Itoa k) ∧
      volTemplates !! "0" = None ∧
      size volTemplates = length snapshots ∧
      (∀ i snapshot,
         snapshots !! i = Some snapshot →
         volTemplates !! strconv.Itoa (Z.of_nat i + 1)
         = Some (template_of snapshot)).
Proof.
  split; [ reflexivity | ]. intros snapshots. eexists. split; [ reflexivity | ].
  assert (∀ key,
    is_Some (expandInstanceImageExtraVolumesTemplates_loop 0 snapshots ∅ !! key)
    ↔ ∃ k, (1 ≤ k ≤ Z.of_nat (length snapshots))%Z ∧ key = strconv.Itoa k)
    as Hkeys.
  { intros key. split.
    - intros [Hm | (j & Hj & ->)]%expand_loop_is_Some.
      + rewrite lookup_empty in Hm. by destruct Hm.
      + exists (Z.of_nat j + 1)%Z. split; [ lia | done ].
    - intros (k & Hk & ->).
      destruct (lookup_lt_is_Some_2 snapshots (Z.to_nat (k - 1)))
        as [snapshot Hs]; [ lia | ].
      pose proof (expand_loop_lookup 0 snapshots ∅ _ _ Hs) as E.
      replace (Z.of_nat (0 + Z.to_nat (k - 1)) + 1)%Z with k in E by lia.
      by rewrite E. }
  split_and!.
  - done.
  - apply eq_None_not_Some. intros (k & Hk & E)%Hkeys.
    change "0" with (strconv.Itoa 0) in E. apply Itoa_inj in E. lia.
  - rewrite expand_loop_size; [ by rewrite map_size_empty | ].
    intros j Hj. apply lookup_empty.
  - intros i snapshot Hs. by apply (expand_loop_lookup 0).
Qed.

(** ** The wait helpers *)

Section waitFacts.
Context `{sdk : SDK} {W : Type}.
Variable DefaultWaitRetryInterval : option time.Duration.
Variable api : API W.
Variable zone : scw.Zone.

Abbreviation retryInterval := (wait_retry_interval DefaultWaitRetryInterval).

(** C8: each wait helper makes exactly one call, the SDK's wait call, with
    the caller's timeout, with the retry interval [DefaultWaitRetryInterval]
    when it is set and five seconds otherwise, and returns the result and the
    error of that call as they are. *)
Theorem wait_helpers_forward (id serverID privateNICID : string)
    (timeout : time.Duration) :
  forwards (waitForInstanceSnapshot DefaultWaitRetryInterval api zone id timeout)
    (WaitForSnapshot api) EvWaitForSnapshot
    {| WaitForSnapshotRequest.SnapshotID := id;
       WaitForSnapshotRequest.Zone := zone;
       WaitForSnapshotRequest.Timeout := Some timeout;
       WaitForSnapshotRequest.RetryInterval := Some retryInterval |} ∧
  forwards (waitForInstanceVolume DefaultWaitRetryInterval api zone id timeout)
    (WaitForVolume api) EvWaitForVolume
    {| WaitForVolumeRequest.VolumeID := id;
       WaitForVolumeRequest.Zone := zone;
       WaitForVolumeRequest.Timeout := Some timeout;
       WaitForVolumeRequest.RetryInterval := Some retryInterval |} ∧
  forwards (waitForInstanceServer DefaultWaitRetryInterval api zone id timeout)
    (WaitForServer api) EvWaitForServer
    {| WaitForServerRequest.ServerID := id;
       WaitForServerRequest.Zone := zone;
       WaitForServerRequest.Timeout := Some timeout;
       WaitForServerRequest.RetryInterval := Some retryInterval |} ∧
  forwards (waitForPrivateNIC DefaultWaitRetryInterval api zone serverID
              privateNICID timeout)
    (WaitForPrivateNIC api) EvWaitForPrivateNIC
    {| WaitForPrivateNICRequest.ServerID := serverID;
       WaitForPrivateNICRequest.PrivateNicID := privateNICID;
       WaitForPrivateNICRequest.Zone := zone;
       WaitForPrivateNICRequest.Timeout := Some timeout;
       WaitForPrivateNICRequest.RetryInterval := Some retryInterval |} ∧
  forwards (waitForMACAddress DefaultWaitRetryInterval api zone serverID
              privateNICID timeout)
    (WaitForMACAddress api) EvWaitForMACAddress
    {| WaitForMACAddressRequest.ServerID := serverID;
       WaitForMACAddressRequest.PrivateNicID := privateNICID;
       WaitForMACAddressRequest.Zone := zone;
       WaitForMACAddressRequest.Timeout := Some timeout;
       WaitForMACAddressRequest.RetryInterval := Some retryInterval |} ∧
  forwards (waitForInstanceImage DefaultWaitRetryInterval api zone id timeout)
    (WaitForImage api) EvWaitForImage
    {| WaitForImageRequest.ImageID := id;
       WaitForImageRequest.Zone := zone;
       WaitForImageRequest.Timeout := Some timeout;
       WaitForImageRequest.RetryInterval := Some retryInterval |}.
Proof.
  unfold forwards, wait_retry_interval.
  split_and!; intros w;
    [ unfold waitForInstanceSnapshot | unfold waitForInstanceVolume
    | unfold waitForInstanceServer | unfold waitForPrivateNIC
    | unfold waitForMACAddress | unfold waitForInstanceImage ];
    unfold mbind, M_bind, call, ret;
    change defaultInstanceRetryInterval with 5000000000%Z;
    destruct DefaultWaitRetryInterval as [d|]; cbv zeta;
    match goal with
    | |- context [ ?sdk_call ?req w ] =>
        destruct (sdk_call req w) as [[res err] w']
    end; reflexivity.
Qed.

End waitFacts.

(** ** [privateNICsHandler] *)

Section privateNICsHandlerFacts.
Context `{sdk : SDK} {W : Type}.
Variable DefaultWaitRetryInterval : option time.Duration.
Variable expandStringPtr : interface → option string.
Variable expandID : string → string.

(** What is assumed of [expandStringPtr]: nil gives nil, and a string gives
    nil or a pointer to that string. *)
Hypothesis expandStringPtr_nil : expandStringPtr interface_nil = None.
Hypothesis expandStringPtr_string :
  ∀ s p, expandStringPtr (interface_string s) = Some p → p = s.

Abbreviation attach' := (attach DefaultWaitRetryInterval expandStringPtr expandID).
Abbreviation detach' := (detach DefaultWaitRetryInterval expandStringPtr expandID).

(** C7: [attach] creates a private NIC only when the private network ID it
    is given is absent from the handler's map: a [CreatePrivateNIC] call in
    its log implies that, and when the ID is absent that call is the first
    one made.  When the ID is present, or the input is nil, [attach] makes no
    call, leaves the world as it is and returns nil.  Symmetrically,
    [detach] deletes a NIC only when the old private network ID is present
    in the map, and makes no call when it is absent or when the input is nil
    or the empty string. *)
Theorem privateNICsHandler_attach_detach (ph : privateNICsHandler W)
    (timeout : time.Duration) (w : W) :
  (attach' ph interface_nil timeout w = (None, w, []) ∧
   (∀ n s, expandStringPtr n = Some s →
           is_Some (privateNICsMap ph !! expandID s) →
           attach' ph n timeout w = (None, w, [])) ∧
   (∀ n err w' log req res,
      attach' ph n timeout w = (err, w', log) →
      EvCreatePrivateNIC req res ∈ log →
      ∃ s, expandStringPtr n = Some s ∧
           privateNICsMap ph !! expandID s = None ∧
           CreatePrivateNICRequest.PrivateNetworkID req = expandID s) ∧
   (∀ n s err w' log,
      expandStringPtr n = Some s →
      privateNICsMap ph !! expandID s = None →
      attach' ph n timeout w = (err, w', log) →
      ∃ res log',
        log = EvCreatePrivateNIC
                {| CreatePrivateNICRequest.Zone := zone ph;
                   CreatePrivateNICRequest.ServerID := serverID ph;
                   CreatePrivateNICRequest.PrivateNetworkID := expandID s |}
                res :: log')) ∧
  (detach' ph interface_nil timeout w = (None, w, []) ∧
   detach' ph (interface_string "") timeout w = (None, w, []) ∧
   (∀ o s, expandStringPtr o = Some s →
           privateNICsMap ph !! expandID s = None →
           detach' ph o timeout w = (None, w, [])) ∧
   (∀ o err w' log req res,
      detach' ph o timeout w = (err, w', log) →
      EvDeletePrivateNIC req res ∈ log →
      ∃ s p, expandStringPtr o = Some s ∧
             privateNICsMap ph !! expandID s = Some p ∧
             DeletePrivateNICRequest.PrivateNicID req
             = expandID (PrivateNIC.ID p))).
Proof.
  split; split_and!.
  - unfold attach. by rewrite expandStringPtr_nil.
  - intros n s Hs [p Hp]. unfold attach. by rewrite Hs, Hp.
  - intros n err w' log req res Hrun Hin. unfold attach in Hrun.
    destruct (expandStringPtr n) as [s|] eqn:Hs.
    + destruct (privateNICsMap ph !! expandID s) as [p|] eqn:Hp.
      * injection Hrun as <- <- <-. by apply elem_of_nil in Hin.
      * exists s. split_and!; try done.
        unfold waitForPrivateNIC, waitForMACAddress in Hrun.
        inv_run; by elem_of_log Hin.
    + injection Hrun as <- <- <-. by apply elem_of_nil in Hin.
  - intros n s err w' log Hs Hp Hrun. unfold attach in Hrun.
    rewrite Hs, Hp in Hrun.
    unfold waitForPrivateNIC, waitForMACAddress in Hrun.
    inv_run; by eexists _, _.
  - unfold detach. by rewrite expandStringPtr_nil.
  - unfold detach.
    destruct (expandStringPtr (interface_string "")) as [p|] eqn:Hp;
      [ | done ].
    apply expandStringPtr_string in Hp as ->. done.
  - intros o s Hs Hp. unfold detach. rewrite Hs, Hp. by case_decide.
  - intros o err w' log req res Hrun Hin. unfold detach in Hrun.
    destruct (expandStringPtr o) as [s|] eqn:Hs.
    + case_decide.
      * destruct (privateNICsMap ph !! expandID s) as [p|] eqn:Hp.
        -- exists s, p. split_and!; try done.
           unfold waitForPrivateNIC in Hrun.
           inv_run; by elem_of_log Hin.
        -- injection Hrun as <- <- <-. by apply elem_of_nil in Hin.
      * injection Hrun as <- <- <-. by apply elem_of_nil in Hin.
    + injection Hrun as <- <- <-. by apply elem_of_nil in Hin.
Qed.

End privateNICsHandlerFacts.

(** ** [retryUpdateReverseDNS] *)

Lemma As_InvalidArgumentsError_unwraps_to err Details :
  errors.As_InvalidArgumentsError err = Some Details ↔
  unwraps_to err (InvalidArgumentsError Details).
Proof.
  split.
  - induction err as [msg|D|msg err IH]; simpl; intros E.
    + discriminate.
    + injection E as ->. constructor.
    + constructor. by apply IH.
  - intros Hu. remember (InvalidArgumentsError Details) as target eqn:Et.
    induction Hu as [err|msg err target Hu IH]; [ by subst | by apply IH ].
Qed.

Lemma isIPReverseDNSResolveError_details_true Details :
  isIPReverseDNSResolveError_details Details = true ↔
  ∃ fields, fields ∈ Details ∧ scw.ArgumentName fields = "reverse".
Proof.
  induction Details as [|d Details IH]; simpl.
  - split; [ discriminate | ]. intros (fields & Hin & _).
    by apply elem_of_nil in Hin.
  - case_decide as Hd.
    + split; [ | done ]. intros _. exists d. split; [ left | done ].
    + rewrite IH. split.
      * intros (fields & Hin & Hn). exists fields. split; [ by right | done ].
      * intros (fields & Hin & Hn). apply elem_of_cons in Hin as [-> | Hin];
          [ done | by exists fields ].
Qed.

Lemma isIPReverseDNSResolveError_true err :
  isIPReverseDNSResolveError err = true ↔ IPReverseDNSResolveError err.
Proof.
  unfold isIPReverseDNSResolveError, IPReverseDNSResolveError. split.
  - destruct err as [e|]; simpl; [ | discriminate ].
    destruct (errors.As_InvalidArgumentsError e) as [Details|] eqn:E;
      [ | discriminate ].
    intros (fields & Hin & Hn)%isIPReverseDNSResolveError_details_true.
    exists e, Details, fields. split_and!; try done.
    by apply As_InvalidArgumentsError_unwraps_to.
  - intros (e & Details & fields & -> & Hu & Hin & Hn). simpl.
    apply As_InvalidArgumentsError_unwraps_to in Hu. rewrite Hu.
    apply isIPReverseDNSResolveError_details_true. by exists fields.
Qed.

Lemma isIPReverseDNSResolveError_false err :
  isIPReverseDNSResolveError err = false ↔ ¬ IPReverseDNSResolveError err.
Proof.
  rewrite <- isIPReverseDNSResolveError_true.
  by destruct (isIPReverseDNSResolveError err).
Qed.

Section retryFacts.
Context `{sdk : SDK} {W : Type}.
Variable runtime : Runtime W.
Variable instanceAPI : API W.
Variable req : UpdateIPRequest.

Abbreviation retry_loop := (retryUpdateReverseDNS_loop runtime instanceAPI req).

Lemma retryUpdateReverseDNS_loop_rounds fuel tc w r w' log :
  retry_loop fuel tc w = (Some r, w', log) → retry_rounds req tc log r.
Proof.
  revert w w' log. induction fuel as [|fuel IH]; intros w w' log Hrun;
    simpl in Hrun; [ discriminate | ].
  unfold mbind, M_bind, call in Hrun.
  destruct (time_After runtime _ w) as [tick w1].
  destruct (select2 runtime tick tc w1) as [[|] w2].
  - destruct (UpdateIP instanceAPI req w2) as [res w3].
    destruct (bool_decide (res.2 ≠ None) && isIPReverseDNSResolveError res.2)
      eqn:Hretry.
    + apply andb_true_iff in Hretry as [_ Hres].
      destruct (retry_loop fuel tc w3) as [[r' w4] l4] eqn:E4.
      injection Hrun as -> <- <-. simpl.
      apply retry_again; [ by apply isIPReverseDNSResolveError_true | ].
      by eapply IH.
    + injection Hrun as <- <- <-. simpl. apply retry_return.
      apply isIPReverseDNSResolveError_false.
      apply andb_false_iff in Hretry as [Hnil | Hres]; [ | done ].
      apply bool_decide_eq_false in Hnil.
      destruct res.2; [ by destruct Hnil | reflexivity ].
  - destruct (UpdateIP instanceAPI req w2) as [res w3].
    injection Hrun as <- <- <-. simpl. apply retry_timeout.
Qed.

(** More fuel does not change the result of a run that returned. *)
Lemma retryUpdateReverseDNS_loop_fuel fuel fuel' tc w r w' log :
  retry_loop fuel tc w = (Some r, w', log) → fuel ≤ fuel' →
  retry_loop fuel' tc w = (Some r, w', log).
Proof.
  revert fuel' w w' log. induction fuel as [|fuel IH];
    intros fuel' w w' log Hrun Hle; simpl in Hrun; [ discriminate | ].
  destruct fuel' as [|fuel']; [ lia | ]. simpl.
  unfold mbind, M_bind, call in *.
  destruct (time_After runtime _ w) as [tick w1].
  destruct (select2 runtime tick tc w1) as [[|] w2]; [ | done ].
  destruct (UpdateIP instanceAPI req w2) as [res w3].
  destruct (bool_decide (res.2 ≠ None) && isIPReverseDNSResolveError res.2);
    [ | done ].
  destruct (retry_loop fuel tc w3) as [[r' w4] l4] eqn:E4.
  injection Hrun as -> <- <-.
  by rewrite (IH fuel' w3 w4 l4 E4) by lia.
Qed.

Lemma retryUpdateReverseDNS_loop_returns rounds_left fuel tc w :
  timeout_elapses runtime instanceAPI req rounds_left →
  rounds_left w < fuel →
  ∃ r w' log, retry_loop fuel tc w = (Some r, w', log).
Proof.
  intros [HAfter HUpdate Hselect]. revert w.
  induction fuel as [|fuel IH]; intros w Hfuel; [ lia | ].
  simpl. unfold mbind, M_bind, call.
  pose proof (HAfter defaultInstanceRetryInterval w) as H1.
  destruct (time_After runtime _ w) as [tick w1]. simpl in H1.
  pose proof (Hselect tick tc w1) as H2.
  destruct (select2 runtime tick tc w1) as [[|] w2]; simpl in H2.
  - pose proof (HUpdate w2) as H3.
    destruct (UpdateIP instanceAPI req w2) as [res w3]. simpl in H3.
    destruct (bool_decide (res.2 ≠ None) && isIPReverseDNSResolveError res.2);
      [ | by eexists _, _, _ ].
    destruct (IH w3) as (r & w' & log & E); [ specialize (H2 eq_refl); lia | ].
    rewrite E. by eexists _, _, _.
  - destruct (UpdateIP instanceAPI req w2) as [res w3]. by eexists _, _, _.
Qed.

(** C3: [retryUpdateReverseDNS] retries [UpdateIP] on a five-second timer
    while the call fails with an IP reverse-DNS resolve error, that is, an
    error that unwraps to an [InvalidArgumentsError] with a detail named
    "reverse"; a call that succeeds or fails otherwise ends the loop with its
    result; when the timeout elapses one last call is made and its error is
    returned.  Stated on the log: whenever the function returns, its log is
    the making of the timeout channel followed by rounds of that shape, and
    it does return as soon as the fuel exceeds the number of rounds after
    which the timeout elapses. *)
Theorem retryUpdateReverseDNS_spec timeout :
  defaultInstanceRetryInterval = (5 * 1000000000)%Z ∧
  (∀ err, isIPReverseDNSResolveError err = true ↔ IPReverseDNSResolveError err) ∧
  (∀ fuel w r w' log,
     retryUpdateReverseDNS runtime instanceAPI req fuel timeout w
       = (Some r, w', log) →
     ∃ tc rounds,
       log = EvTimeAfter timeout tc :: rounds ∧ retry_rounds req tc rounds r) ∧
  (∀ rounds_left fuel w,
     timeout_elapses runtime instanceAPI req rounds_left →
     rounds_left w < fuel →
     ∃ r w' log,
       retryUpdateReverseDNS runtime instanceAPI req fuel timeout w
         = (Some r, w', log)).
Proof.
  split_and!.
  - reflexivity.
  - apply isIPReverseDNSResolveError_true.
  - intros fuel w r w' log Hrun.
    unfold retryUpdateReverseDNS, mbind, M_bind, call in Hrun.
    destruct (time_After runtime timeout w) as [tc w1].
    destruct (retry_loop fuel tc w1) as [[r' w2] l2] eqn:E2.
    injection Hrun as -> <- <-. exists tc, l2. split; [ done | ].
    by eapply retryUpdateReverseDNS_loop_rounds.
  - intros rounds_left fuel w Helapses Hfuel.
    unfold retryUpdateReverseDNS, mbind, M_bind, call.
    pose proof (timeout_elapses_After _ _ _ _ Helapses timeout w) as H1.
    destruct (time_After runtime timeout w) as [tc w1]. simpl in H1.
    destruct (retryUpdateReverseDNS_loop_returns rounds_left fuel tc w1)
      as (r & w' & log & E); [ done | lia | ].
    rewrite E. by eexists _, _, _.
Qed.

End retryFacts.

(** * Theorems on the other helpers *)

(** ** [formatImageLabel] *)

Lemma chars_inj s1 s2 : chars s1 = chars s2 → s1 = s2.
Proof.
  revert s2. induction s1 as [|c s1 IH]; intros [|c2 s2]; simpl; try done.
  intros [= -> E]. f_equal. by apply IH.
Qed.

Lemma chars_length s : length (chars s) = String.length s.
Proof. induction s as [|c s IH]; simpl; [ done | by rewrite IH ]. Qed.

Lemma formatImageLabel_cons c s :
  formatImageLabel (String c s) = String (label_char c) (formatImageLabel s).
Proof.
  unfold formatImageLabel, strings.ReplaceAll, label_char.
  cbn [strings.ReplaceAll_from String.prefix String.length Nat.sub].
  destruct (Ascii.ascii_dec "-" c) as [<- | Hne].
  - rewrite decide_True by done. by destruct s.
  - by rewrite decide_False.
Qed.

Lemma formatImageLabel_chars_map s :
  chars (formatImageLabel s) = label_char <$> chars s.
Proof.
  induction s as [|c s IH]; [ done | ].
  rewrite formatImageLabel_cons. simpl. by rewrite IH.
Qed.

(** X1: a label has the characters of the image UUID in the same places,
    except that every "-" has become "_": the label is as long as the UUID
    and nothing is inserted, dropped or reordered. *)
Theorem formatImageLabel_chars imageUUID :
  chars (formatImageLabel imageUUID) = label_char <$> chars imageUUID ∧
  String.length (formatImageLabel imageUUID) = String.length imageUUID.
Proof.
  split; [ apply formatImageLabel_chars_map | ].
  by rewrite <- !chars_length, formatImageLabel_chars_map, length_fmap.
Qed.

Lemma label_char_not_dash c : label_char c ≠ "-"%char.
Proof. unfold label_char. by case_decide. Qed.

Lemma formatImageLabel_id s :
  formatImageLabel s = s ↔ "-"%char ∉ chars s.
Proof.
  induction s as [|c s IH]; simpl.
  - split; [ intros _; apply not_elem_of_nil | done ].
  - rewrite formatImageLabel_cons, not_elem_of_cons. split.
    + intros [= Hc Hs]. split; [ | by apply IH ].
      intros <-. by apply (label_char_not_dash "-").
    + intros [Hc Hs]. f_equal; [ | by apply IH ].
      unfold label_char. by rewrite decide_False.
Qed.

(** X2: a label holds no "-"; formatting a label again changes nothing; and
    [formatImageLabel] leaves a string as it is exactly when the string holds
    no "-". *)
Theorem formatImageLabel_no_dash imageUUID :
  ("-"%char ∉ chars (formatImageLabel imageUUID)) ∧
  formatImageLabel (formatImageLabel imageUUID) = formatImageLabel imageUUID ∧
  (formatImageLabel imageUUID = imageUUID ↔ "-"%char ∉ chars imageUUID).
Proof.
  assert ("-"%char ∉ chars (formatImageLabel imageUUID)) as Hno.
  { rewrite formatImageLabel_chars_map.
    intros (c & E & _)%list_elem_of_fmap. by apply (label_char_not_dash c). }
  split; [ done | ]. split; [ by apply formatImageLabel_id | ].
  apply formatImageLabel_id.
Qed.

(** X3: two image UUIDs that hold no "_" and have the same label are equal:
    on such strings the label determines the UUID. *)
Theorem formatImageLabel_inj s1 s2 :
  "_"%char ∉ chars s1 → "_"%char ∉ chars s2 →
  formatImageLabel s1 = formatImageLabel s2 → s1 = s2.
Proof.
  revert s2. induction s1 as [|c1 s1 IH]; intros [|c2 s2];
    rewrite ?formatImageLabel_cons; try done.
  simpl. rewrite !not_elem_of_cons.
  intros [Hc1 Hs1] [Hc2 Hs2] [= Hc Hs]. f_equal; [ | by apply IH ].
  unfold label_char in Hc. repeat case_decide; congruence.
Qed.

(** ** Running a computation of the second part *)

Section MoreMonadFacts.
Context `{sdk : SDK} {W : Type}.

Lemma N_bind_inv {A B} (m : N W A) (f : A → N W B) w b w2 log :
  (m ≫= f) w = (b, w2, log) →
  ∃ a w1 l1 l2, m w = (a, w1, l1) ∧ f a w1 = (b, w2, l2) ∧ log = l1 ++ l2.
Proof.
  unfold mbind, N_bind. destruct (m w) as [[a w1] l1].
  destruct (f a w1) as [[b' w2'] l2] eqn:E. intros [= <- <- <-].
  by exists a, w1, l1, l2.
Qed.

Lemma invoke_inv {A} (h : W → A * W) (c : A → Call) w a w' log :
  invoke h c w = (a, w', log) → h w = (a, w') ∧ log = [c a].
Proof. unfold invoke. destruct (h w) as [a' w1]. by intros [= <- <- <-]. Qed.

Lemma N_ret_inv {A} (a : A) (w : W) r w' log :
  N_ret a w = (r, w', log) → r = a ∧ w' = w ∧ log = [].
Proof. by intros [= <- <- <-]. Qed.

Lemma tflog_Warn_inv msg (w : W) r w' log :
  tflog_Warn msg w = (r, w', log) → w' = w ∧ log = [CallWarn msg].
Proof. by intros [= <- <- <-]. Qed.

Lemma lift_inv {A} (m : M W A) w a w' log :
  lift m w = (a, w', log) →
  ∃ l, m w = (a, w', l) ∧ log = CallInstance <$> l.
Proof.
  unfold lift. destruct (m w) as [[a' w1] l]. intros [= <- <- <-].
  by exists l.
Qed.

End MoreMonadFacts.

Ltac inv_run_N :=
  repeat match goal with
    | H : (_ ≫= _) _ = (_, _, _) |- _ =>
        destruct (N_bind_inv _ _ _ _ _ _ H) as (? & ? & ? & ? & ? & ? & ?);
        clear H; simplify_eq; cbv beta in *
    | H : invoke _ _ _ = (_, _, _) |- _ =>
        destruct (invoke_inv _ _ _ _ _ _ H) as [? ?]; clear H; simplify_eq
    | H : N_ret _ _ = (_, _, _) |- _ =>
        destruct (N_ret_inv _ _ _ _ _ H) as (? & ? & ?); clear H; simplify_eq
    | H : tflog_Warn _ _ = (_, _, _) |- _ =>
        destruct (tflog_Warn_inv _ _ _ _ _ H) as (? & ?); clear H; simplify_eq
    | H : (match ?x with _ => _ end) _ = (_, _, _) |- _ => destruct x eqn:?
    end.

(** ** [getSnapshotsFromIds] *)

Section getSnapshotsFromIdsFacts.
Context `{sdk : SDK} {W : Type}.
Variable parseZonedID : string → scw.Zone * string * option error.
Variable api : MoreAPI W.

Abbreviation snapshots_loop := (getSnapshotsFromIds_loop parseZonedID api).
Abbreviation snapshot_request := (getSnapshotsFromIds_request parseZonedID).

Lemma appended_snoc {A} (acc : option (list A)) x l :
  appended (Some (default [] acc ++ [x])) l = appended acc (x :: l).
Proof. destruct l; simpl; [ done | by rewrite <- app_assoc ]. Qed.

Lemma getSnapshotsFromIds_loop_success snapIDs acc w res w' log :
  snapshots_loop snapIDs acc w = (res, None, w', log) →
  ∃ responses,
    length responses = length snapIDs ∧
    res = appended acc responses ∧
    log = zip_with (λ snapID r, CallGetSnapshot (snapshot_request snapID) (inl r))
            snapIDs responses.
Proof.
  revert acc w res w' log.
  induction snapIDs as [|snapID snapIDs IH]; intros acc w res w' log Hrun;
    simpl in Hrun.
  - apply N_ret_inv in Hrun as ([= <-] & _ & ->). by exists [].
  - destruct (parseZonedID snapID) as [[zone id] [perr|]] eqn:Hparse;
      [ by apply N_ret_inv in Hrun as ([= ] & _) | ].
    apply N_bind_inv in Hrun as (got & w1 & l1 & l2 & Hcall & Hrun & ->).
    apply invoke_inv in Hcall as [Hcall ->].
    destruct got as [snapshot|e];
      [ | by apply N_ret_inv in Hrun as ([= ] & _) ].
    apply IH in Hrun as (responses & Hlen & -> & ->).
    exists (snapshot :: responses). split_and!.
    + simpl. by rewrite Hlen.
    + apply appended_snoc.
    + simpl. unfold getSnapshotsFromIds_request at 2. by rewrite Hparse.
Qed.

Lemma getSnapshotsFromIds_loop_app pre post acc w acc' w1 l1 :
  snapshots_loop pre acc w = (acc', None, w1, l1) →
  snapshots_loop (pre ++ post) acc w =
  let '(res, w2, l2) := snapshots_loop post acc' w1 in (res, w2, l1 ++ l2).
Proof.
  revert acc w acc' w1 l1.
  induction pre as [|snapID pre IH]; intros acc w acc' w1 l1 Hrun;
    simpl in Hrun |- *.
  - apply N_ret_inv in Hrun as ([= <-] & -> & ->).
    by destruct (snapshots_loop post _ _) as [[? ?] ?].
  - destruct (parseZonedID snapID) as [[zone id] [perr|]];
      [ by apply N_ret_inv in Hrun as ([= ] & _) | ].
    apply N_bind_inv in Hrun as (got & w0 & l0 & l2 & Hcall & Hrun & ->).
    apply invoke_inv in Hcall as [Hcall ->].
    destruct got as [snapshot|e];
      [ | by apply N_ret_inv in Hrun as ([= ] & _) ].
    unfold mbind, N_bind, invoke. rewrite Hcall.
    rewrite (IH _ _ _ _ _ Hrun).
    by destruct (snapshots_loop post acc' w1) as [[? ?] ?].
Qed.

(** X4: when [getSnapshotsFromIds] returns without an error, it has made one
    [GetSnapshot] call for each identifier, in the order of the identifiers,
    each with the zone and the ID that [parseZonedID] gives, and it returns
    the responses of these calls in that order; the slice returned is nil
    exactly when there is no identifier. *)
Theorem getSnapshotsFromIds_success snapIDs w res w' log :
  getSnapshotsFromIds parseZonedID api snapIDs w = (res, None, w', log) →
  ∃ responses,
    length responses = length snapIDs ∧
    res = (if decide (snapIDs = []) then None else Some responses) ∧
    log = zip_with (λ snapID r, CallGetSnapshot (snapshot_request snapID) (inl r))
            snapIDs responses.
Proof.
  intros (responses & Hlen & -> & ->)%getSnapshotsFromIds_loop_success.
  exists responses. split_and!; try done.
  destruct snapIDs, responses; simplify_eq/=; done.
Qed.

(** X5: [getSnapshotsFromIds] stops at the first identifier that fails.  Let
    the identifiers before it succeed, with result [res].  If the identifier
    does not parse, nil is returned with the error of [parseZonedID], the
    snapshots found so far being dropped.  If its [GetSnapshot] call fails,
    [res] is returned with an error that names the identifier and not the
    error of the call.  In both cases no identifier after it is looked at. *)
Theorem getSnapshotsFromIds_first_failure pre snapID post w res w1 l1 :
  getSnapshotsFromIds parseZonedID api pre w = (res, None, w1, l1) →
  (∀ perr, (parseZonedID snapID).2 = Some perr →
     getSnapshotsFromIds parseZonedID api (pre ++ snapID :: post) w
     = (None, Some perr, w1, l1)) ∧
  (∀ e w2,
     (parseZonedID snapID).2 = None →
     GetSnapshot api (snapshot_request snapID) w1 = (inr e, w2) →
     getSnapshotsFromIds parseZonedID api (pre ++ snapID :: post) w
     = (res,
        Some (fmt.Errorf
          ("extra volumes : could not find snapshot with id " +:+ snapID)),
        w2, l1 ++ [CallGetSnapshot (snapshot_request snapID) (inr e)])).
Proof.
  intros Hpre. unfold getSnapshotsFromIds.
  rewrite (getSnapshotsFromIds_loop_app _ _ _ _ _ _ _ Hpre). simpl.
  unfold getSnapshotsFromIds_request.
  destruct (parseZonedID snapID) as [[zone id] perr0]. simpl. split.
  - intros perr ->. unfold N_ret. by rewrite app_nil_r.
  - intros e w2 -> Hcall. unfold mbind, N_bind, invoke. by rewrite Hcall.
Qed.

(** X6: the templates made from the snapshots that [getSnapshotsFromIds]
    returns without an error: the map is not nil, it has one entry for each
    identifier, and the entry under the decimal string of i+1 copies the
    i-th response, that is, the response for the i-th identifier. *)
Theorem expand_getSnapshotsFromIds snapIDs w res w' log :
  getSnapshotsFromIds parseZonedID api snapIDs w = (res, None, w', log) →
  ∃ volTemplates,
    expandInstanceImageExtraVolumesTemplates res = Some volTemplates ∧
    size volTemplates = length snapIDs ∧
    ∀ i snapID,
      snapIDs !! i = Some snapID →
      ∃ snapshot,
        log !! i = Some (CallGetSnapshot (snapshot_request snapID) (inl snapshot)) ∧
        volTemplates !! strconv.Itoa (Z.of_nat i + 1)
        = Some
            {| VolumeTemplate.ID :=
                 Snapshot.ID (GetSnapshotResponse.Snapshot snapshot);
               VolumeTemplate.Name :=
                 SnapshotBaseVolume.Name
                   (Snapshot.BaseVolume (GetSnapshotResponse.Snapshot snapshot));
               VolumeTemplate.Size :=
                 Snapshot.Size (GetSnapshotResponse.Snapshot snapshot);
               VolumeTemplate.VolumeType :=
                 Snapshot.VolumeType (GetSnapshotResponse.Snapshot snapshot) |}.
Proof.
  intros (responses & Hlen & -> & ->)%getSnapshotsFromIds_loop_success.
  exists (expandInstanceImageExtraVolumesTemplates_loop 0 responses ∅).
  split_and!.
  - by destruct responses.
  - rewrite expand_loop_size; [ by rewrite map_size_empty, Hlen | ].
    intros j Hj. apply lookup_empty.
  - intros i snapID Hi.
    destruct (lookup_lt_is_Some_2 responses i) as [snapshot Hs].
    { rewrite Hlen. by eapply lookup_lt_Some. }
    exists snapshot. split.
    + rewrite lookup_zip_with, Hi. simpl. by rewrite Hs.
    + by apply (expand_loop_lookup 0).
Qed.

End getSnapshotsFromIdsFacts.

(** ** [newPrivateNICHandler], [flatPrivateNICs] and [get] *)

Section flatPrivateNICsFacts.
Context `{sdk : SDK} {W : Type}.
Variable DefaultWaitRetryInterval : option time.Duration.
Variable expandStringPtr : interface → option string.
Variable expandID : string → string.
Variable parseLocalizedID : string → string * string * option error.
Variable State_String : string → string.
Variable more : MoreAPI W.

Lemma foldl_insert_last (nics : list PrivateNIC.t)
    (m0 : gmap string PrivateNIC.t) (id : string) :
  foldl (λ privateNICsMap p,
           <[PrivateNIC.PrivateNetworkID p := p]> privateNICsMap) m0 nics !! id
  = match last_on_network nics id with
    | Some p => Some p
    | None => m0 !! id
    end.
Proof.
  unfold last_on_network.
  induction nics as [|p nics IH] using rev_ind; [ done | ].
  rewrite foldl_app, filter_app. simpl.
  destruct (decide (PrivateNIC.PrivateNetworkID p = id)) as [<- | Hne].
  - rewrite lookup_insert_eq, filter_cons_True by done.
    by rewrite filter_nil, last_snoc.
  - rewrite lookup_insert_ne, filter_cons_False by done.
    by rewrite filter_nil, app_nil_r.
Qed.

Lemma flatPrivateNICs_inv ph w ph' err w' log :
  flatPrivateNICs more ph w = (ph', err, w', log) →
  let req := {| ListPrivateNICsRequest.Zone := zone ph;
                ListPrivateNICsRequest.ServerID := serverID ph |} in
  ∃ res,
    ListPrivateNICs more req w = (res, w') ∧
    log = [CallListPrivateNICs req res] ∧
    instanceAPI ph' = instanceAPI ph ∧ serverID ph' = serverID ph ∧
    zone ph' = zone ph ∧
    match res with
    | inr e => err = Some e ∧ ph' = ph
    | inl r =>
        err = None ∧
        ∀ id, privateNICsMap ph' !! id
              = last_on_network (ListPrivateNICsResponse.PrivateNics r) id
    end.
Proof.
  intros Hrun req. unfold flatPrivateNICs in Hrun. fold req in Hrun.
  apply N_bind_inv in Hrun as (res & w1 & l1 & l2 & Hcall & Hrun & ->).
  apply invoke_inv in Hcall as [Hcall ->].
  exists res. destruct res as [r|e];
    apply N_ret_inv in Hrun as ([= -> ->] & -> & ->); split_and!; try done.
  intros id. simpl. rewrite foldl_insert_last, lookup_empty.
  by destruct (last_on_network _ id).
Qed.

(** X7: [flatPrivateNICs] makes one call, [ListPrivateNICs] for the zone and
    the server of the handler.  When the call fails the handler is left as
    it was and the error is returned.  When it succeeds the map of the
    handler is built anew from the list: under a private network ID it holds
    the last NIC listed on that network, so every NIC of the map is stored
    under its own private network ID and is one of the NICs listed, and
    nothing of the old map remains. *)
Theorem flatPrivateNICs_spec ph w ph' err w' log :
  flatPrivateNICs more ph w = (ph', err, w', log) →
  ∃ res,
    log = [CallListPrivateNICs
             {| ListPrivateNICsRequest.Zone := zone ph;
                ListPrivateNICsRequest.ServerID := serverID ph |} res] ∧
    match res with
    | inr e => err = Some e ∧ ph' = ph
    | inl r =>
        let nics := ListPrivateNICsResponse.PrivateNics r in
        err = None ∧
        (∀ id, privateNICsMap ph' !! id = last_on_network nics id) ∧
        (∀ id p, privateNICsMap ph' !! id = Some p →
                 PrivateNIC.PrivateNetworkID p = id ∧ p ∈ nics) ∧
        (∀ p, p ∈ nics →
              is_Some (privateNICsMap ph' !! PrivateNIC.PrivateNetworkID p))
    end.
Proof.
  intros (res & _ & -> & _ & _ & _ & Hres)%flatPrivateNICs_inv.
  exists res. split; [ done | ]. destruct res as [r|e]; [ | done ].
  destruct Hres as [-> Hmap]. split_and!; try done.
  - intros id p. rewrite Hmap. unfold last_on_network.
    intros Hlast%last_Some_elem_of%list_elem_of_filter. by destruct Hlast.
  - intros p Hp. rewrite Hmap. unfold last_on_network.
    apply last_is_Some. intros Hnil.
    assert (p ∈ filter (λ q, PrivateNIC.PrivateNetworkID q
                             = PrivateNIC.PrivateNetworkID p)
                       (ListPrivateNICsResponse.PrivateNics r)) as Hin
      by by apply list_elem_of_filter.
    rewrite Hnil in Hin. by apply elem_of_nil in Hin.
Qed.

(** X8: a handler made by [newPrivateNICHandler] from a listing that
    succeeded makes no call and returns nil when it is asked to attach a
    private network on which a NIC is listed, or to detach one on which no
    NIC is listed.  When it detaches a network on which NICs are listed, its
    first call waits for the last NIC listed on that network. *)
Theorem newPrivateNICHandler_attach_detach api server zone' w ph w1 r timeout :
  let nics := ListPrivateNICsResponse.PrivateNics r in
  newPrivateNICHandler api more server zone' w
    = (ph, None, w1,
       [CallListPrivateNICs
          {| ListPrivateNICsRequest.Zone := zone';
             ListPrivateNICsRequest.ServerID := server |} (inl r)]) →
  (∀ n s p, expandStringPtr n = Some s → p ∈ nics →
            PrivateNIC.PrivateNetworkID p = expandID s →
            attach DefaultWaitRetryInterval expandStringPtr expandID ph n
              timeout w1 = (None, w1, [])) ∧
  (∀ o s, expandStringPtr o = Some s →
          (∀ p, p ∈ nics → PrivateNIC.PrivateNetworkID p ≠ expandID s) →
          detach DefaultWaitRetryInterval expandStringPtr expandID ph o
            timeout w1 = (None, w1, [])) ∧
  (∀ o s p err w2 log,
     expandStringPtr o = Some s → s ≠ "" →
     last_on_network nics (expandID s) = Some p →
     detach DefaultWaitRetryInterval expandStringPtr expandID ph o
       timeout w1 = (err, w2, log) →
     ∃ res log',
       log = EvWaitForPrivateNIC
               {| WaitForPrivateNICRequest.ServerID := server;
                  WaitForPrivateNICRequest.PrivateNicID :=
                    expandID (PrivateNIC.ID p);
                  WaitForPrivateNICRequest.Zone := zone';
                  WaitForPrivateNICRequest.Timeout := Some timeout;
                  WaitForPrivateNICRequest.RetryInterval :=
                    Some (wait_retry_interval DefaultWaitRetryInterval) |}
               res :: log').
Proof.
  intros nics Hnew. unfold newPrivateNICHandler in Hnew.
  apply flatPrivateNICs_inv in Hnew
    as (res & _ & [= <-] & _ & Hserver & Hzone & _ & Hmap).
  simpl in Hserver, Hzone. fold nics in Hmap. split_and!.
  - intros n s p Hs Hp Hid. unfold attach. rewrite Hs, Hmap.
    destruct (last_on_network nics (expandID s)) as [q|] eqn:Hlast; [ done | ].
    apply last_None in Hlast.
    assert (p ∈ filter (λ q, PrivateNIC.PrivateNetworkID q = expandID s) nics)
      as Hin by by apply list_elem_of_filter.
    rewrite Hlast in Hin. by apply elem_of_nil in Hin.
  - intros o s Hs Hnone. unfold detach. rewrite Hs, Hmap.
    case_decide; [ | done ].
    destruct (last_on_network nics (expandID s)) as [q|] eqn:Hlast; [ | done ].
    apply last_Some_elem_of, list_elem_of_filter in Hlast as [Hq Hin].
    by destruct (Hnone q Hin).
  - intros o s p err w2 log Hs Hne Hlast Hrun. unfold detach in Hrun.
    rewrite Hs, Hmap, Hlast in Hrun.
    rewrite decide_True in Hrun by (destruct s; [ done | simpl; lia ]).
    unfold waitForPrivateNIC in Hrun. rewrite Hserver, Hzone in Hrun.
    change defaultInstanceRetryInterval with 5000000000%Z in Hrun.
    fold (wait_retry_interval DefaultWaitRetryInterval) in Hrun.
    inv_run; by eexists _, _.
Qed.

(** X9: [get] on a handler whose map was filled by [flatPrivateNICs], for a
    key that parses into a locality and an ID.  It returns a result exactly
    when a NIC is listed on the private network of that ID, and an error
    exactly when it returns no result.  The result has the four keys
    "pn_id", "mac_address", "status" and "zone"; "pn_id" is the key as it
    was given, "zone" the locality, and the address and the status are those
    of the last NIC listed on the network. *)
Theorem get_after_flatPrivateNICs ph w ph' w' r key locality id :
  let nics := ListPrivateNICsResponse.PrivateNics r in
  let got := get parseLocalizedID State_String ph' key in
  flatPrivateNICs more ph w
    = (ph', None, w',
       [CallListPrivateNICs
          {| ListPrivateNICsRequest.Zone := zone ph;
             ListPrivateNICsRequest.ServerID := serverID ph |} (inl r)]) →
  parseLocalizedID key = (locality, id, None) →
  (is_Some got.1 ↔ ∃ p, p ∈ nics ∧ PrivateNIC.PrivateNetworkID p = id) ∧
  (got.1 = None ↔ is_Some got.2) ∧
  (∀ m, got.1 = Some m →
     ∃ p, last_on_network nics id = Some p ∧
       dom m = {[ "pn_id"; "mac_address"; "status"; "zone" ]} ∧
       m !! "pn_id" = Some key ∧
       m !! "mac_address" = Some (PrivateNIC.MacAddress p) ∧
       m !! "status" = Some (State_String (PrivateNIC.State p)) ∧
       m !! "zone" = Some locality).
Proof.
  intros nics got Hflat Hparse.
  apply flatPrivateNICs_inv in Hflat as (res & _ & [= <-] & _ & _ & _ & _ & Hmap).
  fold nics in Hmap. unfold got, get. rewrite Hparse, Hmap.
  destruct (last_on_network nics id) as [p|] eqn:Hlast; simpl.
  - split; [ | split ].
    + split; [ intros _ | done ].
      apply last_Some_elem_of, list_elem_of_filter in Hlast as [Hp Hin].
      by exists p.
    + split; [ done | by intros [? ?] ].
    + intros m [= <-]. exists p. by split_and!.
  - split; [ | split ].
    + split; [ by intros [? ?] | ]. intros (p & Hin & Hp).
      apply last_None in Hlast.
      assert (p ∈ filter (λ q, PrivateNIC.PrivateNetworkID q = id) nics) as Hf
        by by apply list_elem_of_filter.
      rewrite Hlast in Hf. by apply elem_of_nil in Hf.
    + done.
    + done.
Qed.

End flatPrivateNICsFacts.

(** ** [preparePrivateNIC] *)

Section preparePrivateNICFacts.
Context `{sdk : SDK} {W : Type}.
Variable expandID : string → string.
Variable vpcAPI' : vpcAPI W.
Variable server_Zone : scw.Zone.
Variable server_ID : string.

Abbreviation prepare_loop :=
  (preparePrivateNIC_loop expandID vpcAPI' server_Zone server_ID).
Abbreviation prepare :=
  (preparePrivateNIC expandID vpcAPI' server_Zone server_ID).

(** The request made for an entry, and the query made from the network
    found. *)
Abbreviation network_request zonedID :=
  {| vpc.GetPrivateNetworkRequest.PrivateNetworkID :=
       expandID (expandID zonedID);
     vpc.GetPrivateNetworkRequest.Zone := server_Zone |}.
Abbreviation query_of currentPN :=
  {| CreatePrivateNICRequest.Zone := vpc.PrivateNetwork.Zone currentPN;
     CreatePrivateNICRequest.ServerID := server_ID;
     CreatePrivateNICRequest.PrivateNetworkID :=
       vpc.PrivateNetwork.ID currentPN |}.

Lemma preparePrivateNIC_loop_cons r data acc zonedID :
  pn_id_of r = Some zonedID →
  prepare_loop (r :: data) acc =
  (got ← invoke (GetPrivateNetwork vpcAPI' (network_request zonedID))
                (CallGetPrivateNetwork (network_request zonedID));
   match got with
   | inr err => N_ret (Returns (None, Some err))
   | inl currentPN =>
       prepare_loop data (Some (default [] acc ++ [query_of currentPN]))
   end).
Proof.
  unfold pn_id_of. intros Hr. simpl.
  by destruct (r !! "pn_id") as [[|z]|] eqn:E; simplify_eq/=.
Qed.

Lemma preparePrivateNIC_loop_panics r data acc w :
  pn_id_of r = None → prepare_loop (r :: data) acc w = (Panics, w, []).
Proof.
  unfold pn_id_of. intros Hr. simpl.
  by destruct (r !! "pn_id") as [[|z]|] eqn:E; simplify_eq/=.
Qed.

Lemma preparePrivateNIC_loop_success data acc w res w' log :
  prepare_loop data acc w = (Returns (res, None), w', log) →
  ∃ networks zonedIDs,
    Forall2 (λ r zonedID, pn_id_of r = Some zonedID) data zonedIDs ∧
    length networks = length data ∧
    res = appended acc ((λ pn, query_of pn) <$> networks) ∧
    log = zip_with
            (λ zonedID pn,
               CallGetPrivateNetwork (network_request zonedID) (inl pn))
            zonedIDs networks.
Proof.
  revert acc w res w' log.
  induction data as [|r data IH]; intros acc w res w' log Hrun.
  - apply N_ret_inv in Hrun as ([= <-] & _ & ->). by exists [], [].
  - destruct (pn_id_of r) as [zonedID|] eqn:Hr;
      [ | by rewrite preparePrivateNIC_loop_panics in Hrun ].
    rewrite (preparePrivateNIC_loop_cons _ _ _ _ Hr) in Hrun.
    apply N_bind_inv in Hrun as (got & w1 & l1 & l2 & Hcall & Hrun & ->).
    apply invoke_inv in Hcall as [Hcall ->].
    destruct got as [pn|e];
      [ | by apply N_ret_inv in Hrun as ([= ] & _) ].
    apply IH in Hrun as (networks & zonedIDs & Hids & Hlen & -> & ->).
    exists (pn :: networks), (zonedID :: zonedIDs). split_and!.
    + by constructor.
    + simpl. by rewrite Hlen.
    + apply appended_snoc.
    + done.
Qed.

Lemma preparePrivateNIC_loop_app pre post acc w acc' w1 l1 :
  prepare_loop pre acc w = (Returns (acc', None), w1, l1) →
  prepare_loop (pre ++ post) acc w =
  let '(res, w2, l2) := prepare_loop post acc' w1 in (res, w2, l1 ++ l2).
Proof.
  revert acc w acc' w1 l1.
  induction pre as [|r pre IH]; intros acc w acc' w1 l1 Hrun.
  - apply N_ret_inv in Hrun as ([= <-] & -> & ->). simpl.
    by destruct (prepare_loop post _ _) as [[? ?] ?].
  - destruct (pn_id_of r) as [zonedID|] eqn:Hr;
      [ | by rewrite preparePrivateNIC_loop_panics in Hrun ].
    rewrite <- app_comm_cons.
    rewrite (preparePrivateNIC_loop_cons _ _ _ _ Hr) in Hrun.
    rewrite (preparePrivateNIC_loop_cons _ _ _ _ Hr).
    apply N_bind_inv in Hrun as (got & w0 & l0 & l2 & Hcall & Hrun & ->).
    apply invoke_inv in Hcall as [Hcall ->].
    destruct got as [pn|e];
      [ | by apply N_ret_inv in Hrun as ([= ] & _) ].
    unfold mbind, N_bind, invoke. rewrite Hcall.
    rewrite (IH _ _ _ _ _ Hrun).
    by destruct (prepare_loop post acc' w1) as [[? ?] ?].
Qed.

(** X10: [preparePrivateNIC] returns nil and nil for a nil [data], without a
    call.  When it returns without an error for a slice of entries, every
    entry holds a string under "pn_id", one [GetPrivateNetwork] call was
    made for each entry in order, for the ID expanded twice and the zone of
    the server, and the result holds one request for each entry in order,
    with the zone and the ID of the network found and the ID of the server;
    the result is nil exactly when there is no entry. *)
Theorem preparePrivateNIC_success :
  (∀ w, preparePrivateNIC expandID vpcAPI' server_Zone server_ID None w
        = (Returns (None, None), w, [])) ∧
  (∀ data w res w' log,
     preparePrivateNIC expandID vpcAPI' server_Zone server_ID (Some data) w
     = (Returns (res, None), w', log) →
     ∃ networks zonedIDs,
       Forall2 (λ r zonedID, r !! "pn_id" = Some (interface_string zonedID))
         data zonedIDs ∧
       length networks = length data ∧
       res = (if decide (data = []) then None
              else Some ((λ pn, query_of pn) <$> networks)) ∧
       log = zip_with
               (λ zonedID pn,
                  CallGetPrivateNetwork (network_request zonedID) (inl pn))
               zonedIDs networks).
Proof.
  split; [ done | ]. intros data w res w' log Hrun. simpl in Hrun.
  apply preparePrivateNIC_loop_success in Hrun
    as (networks & zonedIDs & Hids & Hlen & -> & ->).
  exists networks, zonedIDs. split_and!; try done.
  - eapply Forall2_impl; [ exact Hids | ]. intros r zonedID. unfold pn_id_of.
    by destruct (r !! "pn_id") as [[|z]|]; intros [= ->].
  - destruct data, networks; simplify_eq/=; done.
Qed.

(** X11: [preparePrivateNIC] stops at the first entry that fails.  Let the
    entries before it succeed.  If the entry holds no string under "pn_id"
    (the key is missing or its value is nil), the function panics: such an
    entry is never skipped.  If the [GetPrivateNetwork] call for the entry
    fails, nil is returned with the error of the call, the requests made so
    far being dropped.  In both cases no entry after it is looked at. *)
Theorem preparePrivateNIC_first_failure pre r post w res w1 l1 :
  prepare (Some pre) w = (Returns (res, None), w1, l1) →
  (pn_id_of r = None →
     prepare (Some (pre ++ r :: post)) w = (Panics, w1, l1)) ∧
  (∀ zonedID e w2,
     pn_id_of r = Some zonedID →
     GetPrivateNetwork vpcAPI' (network_request zonedID) w1 = (inr e, w2) →
     prepare (Some (pre ++ r :: post)) w
     = (Returns (None, Some e), w2,
        l1 ++ [CallGetPrivateNetwork (network_request zonedID) (inr e)])).
Proof.
  intros Hpre. simpl in Hpre |- *.
  rewrite (preparePrivateNIC_loop_app _ _ _ _ _ _ _ Hpre). split.
  - intros Hr. rewrite preparePrivateNIC_loop_panics by done.
    by rewrite app_nil_r.
  - intros zonedID e w2 Hr Hcall.
    rewrite (preparePrivateNIC_loop_cons _ _ _ _ Hr).
    unfold mbind, N_bind, invoke. by rewrite Hcall.
Qed.

End preparePrivateNICFacts.

(** ** [getServerType] *)

(** X12: [getServerType] makes one [GetServerType] call, for the zone and the
    commercial type given, and never returns an error.  It returns a server
    type exactly when the call answers with that server type and no error;
    otherwise it returns nil after having logged one warning, and it logs no
    warning when it returns a server type. *)
Theorem getServerType_spec `{sdk : SDK} {W} (Error : error → string)
    (apiInstance : MoreAPI W) zone commercialType w serverType w' log :
  let req := {| GetServerTypeRequest.Zone := zone;
                GetServerTypeRequest.Name := commercialType |} in
  getServerType Error apiInstance zone commercialType w
    = (serverType, w', log) →
  ∃ res warnings,
    GetServerType apiInstance req w = (res, w') ∧
    log = CallGetServerType req res :: warnings ∧
    (∀ st, serverType = Some st ↔ res = (Some st, None)) ∧
    (serverType = None ↔ ∃ msg, warnings = [CallWarn msg]) ∧
    (is_Some serverType ↔ warnings = []) ∧
    (∀ err, res.2 = Some err →
       warnings = [CallWarn ("cannot get server types: " +:+ Error err)]).
Proof.
  intros req Hrun. unfold getServerType in Hrun. fold req in Hrun.
  apply N_bind_inv in Hrun as ([st err] & w1 & l1 & l2 & Hcall & Hrun & ->).
  apply invoke_inv in Hcall as [Hcall ->].
  destruct err as [err|]; [ | destruct st as [st|] ]; inv_run_N;
    eexists _, _; (split; [ exact Hcall | ]); (split; [ reflexivity | ]);
    simpl; split_and!; try done;
    try (split; [ done | by intros [? [= ]] ]);
    try (split; [ by intros [? ?] | done ]);
    try (split; [ by eexists | done ]);
    try (intros ? [= <-]; done);
    try (intros ?; split; congruence).
Qed.

(** ** More on [reachState] *)

Section reachStateOrder.
Context `{sdk : SDK} {W : Type}.
Variable DefaultWaitRetryInterval : option time.Duration.
Variable instanceAPI : API W.
Variable zone : scw.Zone.
Variable serverID : string.
Hypothesis Hdistinct : distinct_states.

Abbreviation waitVolumes' :=
  (reachState_waitVolumes DefaultWaitRetryInterval instanceAPI zone).
Abbreviation doActions' :=
  (reachState_doActions DefaultWaitRetryInterval instanceAPI zone serverID).
Abbreviation actionRequest' :=
  (reachState_actionRequest DefaultWaitRetryInterval zone serverID).
Abbreviation waitRequest' :=
  (reachState_waitRequest DefaultWaitRetryInterval zone).
Abbreviation wait_event volume res :=
  (EvWaitForVolume (waitRequest' volume) res).
Abbreviation action_event a err :=
  (EvServerActionAndWait (actionRequest' a) err).



(** How a run of [reachState] along an entry of the table decomposes. *)
Lemma reachState_table_run toState w response w1 actions err w' log :
  let req := {| GetServerRequest.Zone := zone;
                GetServerRequest.ServerID := serverID |} in
  let server := GetServerResponse.Server response in
  GetServer instanceAPI req w = (inl response, w1) →
  (Server.State server, toState, actions) ∈ transition_table →
  reachState DefaultWaitRetryInterval instanceAPI zone serverID toState w
    = (err, w', log) →
  ∃ e2 w2 l2,
    waitVolumes' (Server.Volumes server) w1 = (e2, w2, l2) ∧
    match e2 with
    | Some e => err = Some e ∧ log = EvGetServer req (inl response) :: l2
    | None =>
        ∃ l3, doActions' actions w2 = (err, w', l3) ∧
              log = EvGetServer req (inl response) :: l2 ++ l3
    end.
Proof.
  intros req server Hget Hin Hrun.
  assert (Server.State server ≠ toState) as Hne.
  { destruct (distinct_states_ne Hdistinct) as (H1 & H2 & H3 & H4 & H5 & H6).
    unfold transition_table in Hin.
    repeat (apply elem_of_cons in Hin; destruct Hin as [[= -> -> ->] | Hin]);
      try congruence. by apply elem_of_nil in Hin. }
  unfold reachState, mbind, M_bind, call in Hrun. fold req in Hrun.
  rewrite Hget in Hrun. simpl in Hrun. fold server in Hrun.
  rewrite decide_False in Hrun by done.
  rewrite (transitionMap_lookup_table Hdistinct _ _ _ Hin) in Hrun.
  destruct (waitVolumes' _ w1) as [[e2 w2] l2] eqn:E2.
  exists e2, w2, l2. split; [ done | ]. destruct e2 as [e2|].
  - injection Hrun as <- <- <-. by rewrite app_nil_r.
  - destruct (doActions' actions w2) as [[e3 w3] l3] eqn:E3.
    injection Hrun as <- <- <-. by exists l3.
Qed.


Lemma transition_table_complete fromState toState :
  fromState ∈ stable_states → toState ∈ stable_states →
  fromState ≠ toState →
  ∃ actions,
    (fromState, toState, actions) ∈ transition_table ∧
    last actions = Some (action_reaching toState) ∧
    1 ≤ length actions ≤ 2.
Proof.
  destruct (distinct_states_ne Hdistinct) as (H1 & H2 & H3 & H4 & H5 & H6).
  unfold stable_states. rewrite !elem_of_cons, !elem_of_nil.
  intros [-> | [-> | [-> | []]]] [-> | [-> | [-> | []]]] Hne; try done;
    eexists; split_and!;
    [ unfold transition_table; rewrite !elem_of_cons; eauto 10
    | unfold action_reaching; repeat case_decide; try congruence; reflexivity
    | simpl; lia | simpl; lia
    | unfold transition_table; rewrite !elem_of_cons; eauto 10
    | unfold action_reaching; repeat case_decide; try congruence; reflexivity
    | simpl; lia | simpl; lia
    | unfold transition_table; rewrite !elem_of_cons; eauto 10
    | unfold action_reaching; repeat case_decide; try congruence; reflexivity
    | simpl; lia | simpl; lia
    | unfold transition_table; rewrite !elem_of_cons; eauto 10
    | unfold action_reaching; repeat case_decide; try congruence; reflexivity
    | simpl; lia | simpl; lia
    | unfold transition_table; rewrite !elem_of_cons; eauto 10
    | unfold action_reaching; repeat case_decide; try congruence; reflexivity
    | simpl; lia | simpl; lia
    | unfold transition_table; rewrite !elem_of_cons; eauto 10
    | unfold action_reaching; repeat case_decide; try congruence; reflexivity
    | simpl; lia | simpl; lia ].
Qed.

(** X14: between two different stable states (stopped, stopped in place,
    running) [reachState] knows its way: when it returns nil it has
    performed one or two power actions, and the last one is the action that
    puts the server into the target state (poweron for running, poweroff for
    stopped, stop-in-place for stopped in place). *)
Theorem reachState_last_action toState w response w1 w' log :
  let req := {| GetServerRequest.Zone := zone;
                GetServerRequest.ServerID := serverID |} in
  let fromState := Server.State (GetServerResponse.Server response) in
  GetServer instanceAPI req w = (inl response, w1) →
  fromState ∈ stable_states → toState ∈ stable_states →
  fromState ≠ toState →
  reachState DefaultWaitRetryInterval instanceAPI zone serverID toState w
    = (None, w', log) →
  last (power_actions log) = Some (actionRequest' (action_reaching toState)) ∧
  1 ≤ length (power_actions log) ≤ 2.
Proof.
  intros req fromState Hget Hfrom Hto Hne Hrun.
  destruct (transition_table_complete _ _ Hfrom Hto Hne)
    as (actions & Hin & Hlast & Hlen).
  destruct (reachState_table_run _ _ _ _ _ _ _ _ Hget Hin Hrun)
    as (e2 & w2 & l2 & Hwait & Hrest).
  apply reachState_waitVolumes_spec in Hwait as (Hp2 & _ & _).
  destruct e2 as [e2|]; [ by destruct Hrest | ].
  destruct Hrest as (l3 & Hact & ->).
  apply reachState_doActions_spec in Hact as (_ & _ & _ & Hall).
  subst req.
  assert (power_actions (EvGetServer _ (inl response) :: l2 ++ l3)
          = actionRequest' <$> actions) as ->.
  { change (power_actions (EvGetServer _ (inl response) :: l2 ++ l3))
      with (power_actions (l2 ++ l3)).
    rewrite (power_actions_app l2 l3), Hp2. by apply Hall. }
  by rewrite length_fmap, fmap_last, Hlast.
Qed.

End reachStateOrder.

(** ** More on [retryUpdateReverseDNS] *)

Section retryLastCall.
Context `{sdk : SDK} {W : Type}.
Variable runtime : Runtime W.
Variable instanceAPI : API W.
Variable req : UpdateIPRequest.

Lemma retry_rounds_last tc rounds r :
  retry_rounds req tc rounds r →
  (∃ res, last rounds = Some (EvUpdateIP req res) ∧ r = res.2) ∧
  (∀ req' res, EvUpdateIP req' res ∈ rounds → req' = req) ∧
  (IPReverseDNSResolveError r →
     ∃ rounds' tick res,
       rounds = rounds' ++ [EvSelect tick tc false; EvUpdateIP req res]) ∧
  (∀ l1 req' res l2, rounds = l1 ++ EvUpdateIP req' res :: l2 → l2 ≠ [] →
     IPReverseDNSResolveError res.2).
Proof.
  induction 1 as [tick res|tick res Hother|tick res rounds r Hres Hrounds IH].
  - split_and!.
    + by exists res.
    + intros req' res' Hin. by elem_of_log Hin.
    + intros _. by exists [EvTimeAfter 5000000000%Z tick], tick, res.
    + intros l1 req' res' l2 E Hne.
      destruct l1 as [|? [|? [|? l1]]]; simplify_eq/=.
      by destruct l1.
  - split_and!.
    + by exists res.
    + intros req' res' Hin. by elem_of_log Hin.
    + done.
    + intros l1 req' res' l2 E Hne.
      destruct l1 as [|? [|? [|? l1]]]; simplify_eq/=.
      by destruct l1.
  - destruct IH as ((res' & Hlast & ->) & Hsame & Htimeout & Hearlier).
    assert (rounds ≠ []) as Hne by (intros ->; done).
    split_and!.
    + exists res'. split; [ | done ].
      destruct rounds as [|ev rounds]; [ done | ].
      by rewrite !last_cons_cons.
    + intros req' res0 Hin.
      rewrite !elem_of_cons in Hin.
      destruct Hin as [[=] | [[=] | [[= <- _] | Hin]]]; [ done | ].
      by eapply Hsame.
    + intros (rounds' & tick' & res0 & ->)%Htimeout.
      by exists (EvTimeAfter 5000000000%Z tick :: EvSelect tick tc true ::
                 EvUpdateIP req res :: rounds'), tick', res0.
    + intros l1 req' res0 l2 E Hl2.
      destruct l1 as [|? [|? [|? l1]]]; simplify_eq/=.
      * done.
      * by eapply Hearlier.
Qed.

(** X15: whenever [retryUpdateReverseDNS] returns, it has called [UpdateIP]
    at least once, always with the request it was given; what it returns is
    the error of its last call; every call before the last one failed with
    an IP reverse-DNS resolve error; and when the error returned is itself a
    resolve error, the last call is the one made after the timeout
    elapsed. *)
Theorem retryUpdateReverseDNS_last_call fuel timeout w r w' log :
  retryUpdateReverseDNS runtime instanceAPI req fuel timeout w
    = (Some r, w', log) →
  (∃ res, last log = Some (EvUpdateIP req res) ∧ r = res.2) ∧
  (∀ req' res, EvUpdateIP req' res ∈ log → req' = req) ∧
  (∀ l1 req' res l2, log = l1 ++ EvUpdateIP req' res :: l2 → l2 ≠ [] →
     IPReverseDNSResolveError res.2) ∧
  (IPReverseDNSResolveError r →
     ∃ log' tick tc res,
       log = log' ++ [EvSelect tick tc false; EvUpdateIP req res]).
Proof.
  intros Hrun. unfold retryUpdateReverseDNS in Hrun.
  apply bind_inv in Hrun as (tc & w1 & l1 & rounds & Hcall & Hrun & ->).
  apply call_inv in Hcall as [_ ->].
  apply retryUpdateReverseDNS_loop_rounds, retry_rounds_last in Hrun
    as ((res & Hlast & ->) & Hsame & Htimeout & Hearlier).
  split_and!.
  - exists res. split; [ | done ]. simpl.
    destruct rounds; [ done | by rewrite last_cons_cons ].
  - intros req' res' Hin. simpl in Hin.
    apply elem_of_cons in Hin as [[=] | Hin]. by eapply Hsame.
  - intros l1 req' res' l2 E Hl2.
    destruct l1 as [|? l1]; simplify_eq/=. by eapply Hearlier.
  - intros (rounds' & tick & res' & ->)%Htimeout.
    by exists (EvTimeAfter timeout tc :: rounds'), tick, tc, res'.
Qed.

End retryLastCall.

(** ** More on [attach] and [detach] *)

Section attachDetachOrder.
Context `{sdk : SDK} {W : Type}.
Variable DefaultWaitRetryInterval : option time.Duration.
Variable expandStringPtr : interface → option string.
Variable expandID : string → string.
Variable ph : privateNICsHandler W.
Variable timeout : time.Duration.

Abbreviation attach'' :=
  (attach DefaultWaitRetryInterval expandStringPtr expandID ph).
Abbreviation detach'' :=
  (detach DefaultWaitRetryInterval expandStringPtr expandID ph).

(** X16: when [attach] is given a private network that is absent from the
    map of the handler, it creates a NIC on that network, then waits for the
    NIC that was created, then waits for its MAC address; each step is made
    only if the one before succeeded, and the error returned is the one of
    the last step made.  So nil is returned only when the NIC has been
    created and both waits have succeeded. *)
Theorem attach_creates_then_waits n s w err w' log :
  expandStringPtr n = Some s →
  privateNICsMap ph !! expandID s = None →
  attach'' n timeout w = (err, w', log) →
  attach_log DefaultWaitRetryInterval ph timeout (expandID s) log err.
Proof.
  intros Hs Hp Hrun. unfold attach in Hrun. rewrite Hs, Hp in Hrun.
  unfold waitForPrivateNIC, waitForMACAddress in Hrun.
  change defaultInstanceRetryInterval with 5000000000%Z in Hrun.
  fold (wait_retry_interval DefaultWaitRetryInterval) in Hrun.
  inv_run; simpl; rewrite ?app_nil_r; by constructor.
Qed.

(** X17: when [detach] is given a private network that is present in the map
    of the handler, it waits for the NIC stored there and deletes that NIC
    only if the wait succeeded; the error returned is the one of the last
    step made.  Whatever they are given, [detach] never creates a NIC and
    [attach] never deletes one. *)
Theorem detach_waits_then_deletes :
  (∀ o s p w err w' log,
     expandStringPtr o = Some s → s ≠ "" →
     privateNICsMap ph !! expandID s = Some p →
     detach'' o timeout w = (err, w', log) →
     detach_log DefaultWaitRetryInterval expandID ph timeout p log err) ∧
  (∀ o w err w' log req res,
     detach'' o timeout w = (err, w', log) →
     EvCreatePrivateNIC req res ∉ log) ∧
  (∀ n w err w' log req e,
     attach'' n timeout w = (err, w', log) →
     EvDeletePrivateNIC req e ∉ log).
Proof.
  split_and!.
  - intros o s p w err w' log Hs Hne Hp Hrun. unfold detach in Hrun.
    rewrite Hs, Hp in Hrun.
    rewrite decide_True in Hrun by (destruct s; [ done | simpl; lia ]).
    unfold waitForPrivateNIC in Hrun.
    change defaultInstanceRetryInterval with 5000000000%Z in Hrun.
    fold (wait_retry_interval DefaultWaitRetryInterval) in Hrun.
    inv_run; simpl; rewrite ?app_nil_r; by constructor.
  - intros o w err w' log req res Hrun Hin. unfold detach in Hrun.
    unfold waitForPrivateNIC in Hrun.
    destruct (expandStringPtr o) as [s|]; [ case_decide | ];
      [ destruct (privateNICsMap ph !! expandID s) | | ];
      inv_run; by elem_of_log Hin.
  - intros n w err w' log req e Hrun Hin. unfold attach in Hrun.
    unfold waitForPrivateNIC, waitForMACAddress in Hrun.
    destruct (expandStringPtr n) as [s|];
      [ destruct (privateNICsMap ph !! expandID s) | ];
      inv_run; by elem_of_log Hin.
Qed.

End attachDetachOrder.

(** ** Volume maps and the order of [range] *)

Lemma sorted_keys_unique {A} (v : gmap string A) (keys1 keys2 : list string) :
  sorted_keys v keys1 → sorted_keys v keys2 → keys1 = keys2.
Proof.
  intros (Hp1 & _ & Hs1) (Hp2 & _ & Hs2).
  apply (StronglySorted_unique String.le); [ done | done | ].
  by rewrite Hp1, Hp2.
Qed.

Lemma sorted_keys_snoc {A} (v : gmap string A) keys k x :
  sorted_keys v keys →
  v !! k = None →
  (∀ k', is_Some (v !! k') → String.le k' k) →
  sorted_keys (<[k := x]> v) (keys ++ [k]).
Proof.
  intros (Hp & Hnodup & Hsorted) Hk Hle.
  assert (∀ k', k' ∈ keys → is_Some (v !! k')) as Hkeys.
  { intros k'. rewrite Hp. intros ([k0 x0] & -> & Hin)%list_elem_of_fmap.
    apply elem_of_map_to_list in Hin. by exists x0. }
  split_and!.
  - rewrite map_to_list_insert by done. rewrite fmap_cons. simpl.
    rewrite <- Hp. symmetry. apply Permutation_cons_append.
  - apply NoDup_app. split_and!; [ done | | apply NoDup_singleton ].
    intros k' Hin ->%list_elem_of_singleton.
    destruct (Hkeys _ Hin) as [x' Hx']. congruence.
  - apply StronglySorted_app_2; [ | done | ].
    + intros k1 k2 Hin ->%list_elem_of_singleton. by apply Hle, Hkeys.
    + repeat constructor.
Qed.

Lemma sanitizeVolume_idempotent `{sdk : SDK} index v :
  sanitizeVolume index (sanitizeVolume index v) = sanitizeVolume index v.
Proof.
  unfold sanitizeVolume.
  destruct (decide (VolumeServerTemplate.ID v ≠ None)) as [HID | HID].
  - simpl. by rewrite decide_True.
  - destruct (decide (index = "0" ∧ VolumeServerTemplate.Size v = None))
      as [H0 | H0]; simpl.
    + rewrite decide_True; [ done | split; [ apply H0 | done ] ].
    + rewrite decide_False by done. by rewrite decide_False.
Qed.

Lemma local_volumes_total_insert `{sdk : SDK} volumes index volume MinSize :
  volumes !! index = None → index ≠ "0" →
  local_volumes_total (<[index := volume]> volumes) MinSize
  = (local_volume_size volume + local_volumes_total volumes MinSize)%Z.
Proof.
  intros Hindex H0. unfold local_volumes_total.
  rewrite lookup_insert_ne by done.
  assert (Z_sum (local_volume_size
                   <$> (map_to_list (<[index := volume]> volumes)).*2)
          = Z_sum (local_volume_size
                     <$> ((index, volume) :: map_to_list volumes).*2)) as ->.
  { apply Z_sum_Permutation. by rewrite map_to_list_insert. }
  rewrite !fmap_cons, Z_sum_cons. simpl. lia.
Qed.

Section VolumeMapOrder.
Context `{sdk : SDK}.
Variable range range' : ∀ A : Type, gmap string A → list (string * A).
Hypothesis range_Permutation :
  ∀ A (m : gmap string A), range A m ≡ₚ map_to_list m.
Hypothesis range'_Permutation :
  ∀ A (m : gmap string A), range' A m ≡ₚ map_to_list m.

(** X18: the slice that [orderVolumes], and likewise [sortVolumeServer],
    returns does not depend on the order in which [range] visits the map:
    two orders of visit give the same slice. *)
Theorem orderVolumes_range_independent :
  (∀ v : gmap string (option Volume),
     orderVolumes range v = orderVolumes range' v) ∧
  (∀ v : gmap string (option VolumeServer.t),
     sortVolumeServer range v = sortVolumeServer range' v).
Proof.
  split; intros v; [ unfold orderVolumes | unfold sortVolumeServer ];
    rewrite !foldl_snoc_fst, !foldl_snoc_fmap; simpl; f_equal;
    (eapply sorted_keys_unique; by apply sort_Strings_range).
Qed.

Lemma map_index_insert_last {A} (v : gmap string (option A)) k x :
  v !! k = None →
  (∀ k', is_Some (v !! k') → String.le k' k) →
  map_index (<[k := x]> v) <$> sort.Strings (range _ (<[k := x]> v)).*1
  = (map_index v <$> sort.Strings (range _ v).*1) ++ [x].
Proof.
  intros Hk Hle.
  pose proof (sort_Strings_range range range_Permutation v) as Hkeys.
  rewrite (sorted_keys_unique (<[k := x]> v) _ _
             (sort_Strings_range range range_Permutation _)
             (sorted_keys_snoc v _ k x Hkeys Hk Hle)).
  rewrite fmap_app. simpl. unfold map_index at 2.
  rewrite lookup_insert_eq. simpl. f_equal.
  apply list_fmap_ext. intros i k' Hi. unfold map_index.
  rewrite lookup_insert_ne; [ done | ]. intros <-.
  destruct Hkeys as (Hp & _ & _).
  apply list_elem_of_lookup_2 in Hi. rewrite Hp in Hi.
  apply list_elem_of_fmap in Hi as ([k0 x0] & -> & Hin).
  apply elem_of_map_to_list in Hin. simpl in Hk. congruence.
Qed.

(** X19: a volume added under a key that is absent and that comes, as a
    string, after every key of the map is appended to the slice that
    [orderVolumes] returns; likewise for [sortVolumeServer]. *)
Theorem orderVolumes_insert_last :
  (∀ (v : gmap string (option Volume)) k x,
     v !! k = None →
     (∀ k', is_Some (v !! k') → String.le k' k) →
     orderVolumes range (<[k := x]> v) = orderVolumes range v ++ [x]) ∧
  (∀ (v : gmap string (option VolumeServer.t)) k x,
     v !! k = None →
     (∀ k', is_Some (v !! k') → String.le k' k) →
     sortVolumeServer range (<[k := x]> v) = sortVolumeServer range v ++ [x]).
Proof.
  split; intros v k x Hk Hle;
    [ unfold orderVolumes | unfold sortVolumeServer ];
    rewrite !foldl_snoc_fst, !foldl_snoc_fmap; simpl;
    by apply map_index_insert_last.
Qed.

(** X20: [sanitizeVolumeMap] does not depend on the order in which [range]
    visits the map, and sanitizing a map that has been sanitized changes
    nothing. *)
Theorem sanitizeVolumeMap_idempotent volumes :
  sanitizeVolumeMap range' volumes = sanitizeVolumeMap range volumes ∧
  sanitizeVolumeMap range' (sanitizeVolumeMap range volumes)
  = sanitizeVolumeMap range volumes.
Proof.
  split; apply map_eq; intros index;
    rewrite !(sanitizeVolumeMap_lookup range' range'_Permutation),
            !(sanitizeVolumeMap_lookup range range_Permutation);
    [ done | ].
  destruct (volumes !! index) as [v|]; simpl; [ | done ].
  by rewrite sanitizeVolume_idempotent.
Qed.

(** X21: the answer of [validateLocalVolumeSizes] does not depend on the
    order in which [range] visits the map, although the total is added up
    with a wrapping addition. *)
Theorem validateLocalVolumeSizes_range_independent humanize_Bytes volumes
    serverType commercialType :
  validateLocalVolumeSizes range humanize_Bytes volumes serverType
    commercialType
  = validateLocalVolumeSizes range' humanize_Bytes volumes serverType
      commercialType.
Proof.
  rewrite (validateLocalVolumeSizes_wraps range range_Permutation).
  by rewrite (validateLocalVolumeSizes_wraps range' range'_Permutation).
Qed.

(** X22: only the local volumes with a size count.  A volume that is not of
    type LSSD, or whose size is nil, added under an absent key other than
    "0", leaves the answer of [validateLocalVolumeSizes] as it was. *)
Theorem validateLocalVolumeSizes_ignores_other_volumes humanize_Bytes volumes
    index volume serverType commercialType :
  volumes !! index = None → index ≠ "0" →
  VolumeServerTemplate.VolumeType volume ≠ VolumeVolumeTypeLSSD ∨
    VolumeServerTemplate.Size volume = None →
  validateLocalVolumeSizes range humanize_Bytes (<[index := volume]> volumes)
    serverType commercialType
  = validateLocalVolumeSizes range humanize_Bytes volumes serverType
      commercialType.
Proof.
  intros Hindex H0 Hother.
  rewrite !(validateLocalVolumeSizes_wraps range range_Permutation).
  rewrite local_volumes_total_insert by done.
  assert (local_volume_size volume = 0%Z) as ->.
  { unfold local_volume_size. case_decide; [ | done ].
    destruct Hother as [Hother | ->]; done. }
  by rewrite Z.add_0_l.
Qed.

End VolumeMapOrder.

(** ** [isIPReverseDNSResolveError] *)



(** * Concrete instances *)

Lemma map_range_Permutation A (m : gmap string A) :
  Examples.map_range A m ≡ₚ map_to_list m.
Proof. reflexivity. Qed.



(** [serverState_round_trip] on the SDK's constants. *)
Lemma serverState_round_trip_witness :
  distinct_states (sdk:=sdk_v1) ∧
  (∃ t, serverStateFlatten (sdk:=sdk_v1) "stopped in place" = (t, None) ∧
        serverStateExpand (sdk:=sdk_v1) t = ("stopped in place", None)) ∧
  (∃ s, serverStateExpand (sdk:=sdk_v1) "started" = (s, None) ∧
        serverStateFlatten (sdk:=sdk_v1) s = ("started", None)).
Proof.
  pose proof (serverState_round_trip (sdk:=sdk_v1) sdk_v1_distinct) as [Hf He].
  split; [ exact sdk_v1_distinct | split ].
  - apply Hf. simpl. set_solver.
  - apply He. set_solver.
Defined.

(** [serverState_error_iff] on the SDK's constants: a server that is
    starting or locked has no terraform state, a running one has, and
    "running" is not a terraform state. *)
Lemma serverState_error_iff_witness :
  distinct_states (sdk:=sdk_v1) ∧
  is_Some (serverStateFlatten (sdk:=sdk_v1) "starting").2 ∧
  is_Some (serverStateFlatten (sdk:=sdk_v1) "locked").2 ∧
  ¬ is_Some (serverStateFlatten (sdk:=sdk_v1) "running").2 ∧
  is_Some (serverStateExpand (sdk:=sdk_v1) "running").2.
Proof.
  pose proof (serverState_error_iff (sdk:=sdk_v1) sdk_v1_distinct)
    as (Hf & [_ Hl] & He).
  split; [ exact sdk_v1_distinct | ]. repeat split.
  - apply Hf. simpl. rewrite !not_elem_of_cons.
    repeat split; try discriminate. apply not_elem_of_nil.
  - exact Hl.
  - rewrite Hf. intros Hn. apply Hn. simpl. rewrite !elem_of_cons. tauto.
  - apply He. rewrite !not_elem_of_cons.
    repeat split; try discriminate. apply not_elem_of_nil.
Defined.

(** [retryUpdateReverseDNS_spec] on a run: the reverse name never resolves
    and the timeout elapses after two rounds, so that the third call is the
    last one and its error is returned. *)
Lemma retryUpdateReverseDNS_spec_witness :
  let api : API (sdk:=sdk_v1) (nat * nat) :=
    Examples.stateless_api "running" false (Some Examples.reverse_error) in
  timeout_elapses (sdk:=sdk_v1) Examples.countdown api "req" fst ∧
  ∃ log,
    retryUpdateReverseDNS (sdk:=sdk_v1) Examples.countdown api "req" 3
      12000000000%Z (2, 0)
    = (Some (Some Examples.reverse_error), (0, 4), log) ∧
    ∃ tc rounds,
      log = EvTimeAfter 12000000000%Z tc :: rounds ∧
      retry_rounds (sdk:=sdk_v1) "req" tc rounds (Some Examples.reverse_error).
Proof.
  intros api. split.
  - split.
    + intros d [rounds chans]. simpl. lia.
    + intros [rounds chans]. simpl. lia.
    + intros c1 c2 [[|rounds] chans]; simpl; [ discriminate | lia ].
  - eexists. split; [ vm_compute; reflexivity | ].
    refine (proj1 (proj2 (proj2
      (retryUpdateReverseDNS_spec (sdk:=sdk_v1) Examples.countdown api "req"
         12000000000%Z))) 3 (2, 0) _ _ _ eq_refl).
Defined.

(** [sanitizeVolumeMap_spec] on a map of two volumes, visited in the order
    of [Examples.map_range]. *)
Lemma sanitizeVolumeMap_spec_witness :
  (∀ A (m : gmap string A), Examples.map_range A m ≡ₚ map_to_list m) ∧
  dom (sanitizeVolumeMap Examples.map_range Examples.huge_volumes)
  = dom Examples.huge_volumes.
Proof.
  split; [ exact map_range_Permutation | ].
  exact (proj1 (sanitizeVolumeMap_spec Examples.map_range
                  map_range_Permutation Examples.huge_volumes)).
Defined.

(** [orderVolumes_sorted_by_key] on a map of three volumes. *)
Lemma orderVolumes_sorted_by_key_witness :
  (∀ A (m : gmap string A), Examples.map_range A m ≡ₚ map_to_list m) ∧
  ∃ keys, sorted_keys Examples.three_volumes keys ∧
    Forall2 (λ k x, Examples.three_volumes !! k = Some x) keys
      (orderVolumes (sdk:=sdk_v1) Examples.map_range Examples.three_volumes) ∧
    length (orderVolumes (sdk:=sdk_v1) Examples.map_range Examples.three_volumes)
    = size Examples.three_volumes ∧
    orderVolumes (sdk:=sdk_v1) Examples.map_range Examples.three_volumes
    ≡ₚ (map_to_list Examples.three_volumes).*2.
Proof.
  split; [ exact map_range_Permutation | ].
  exact (proj1 (orderVolumes_sorted_by_key (sdk:=sdk_v1) Examples.map_range
                  map_range_Permutation) Examples.three_volumes).
Defined.

(** On the three volumes the order is "0", "1", "10". *)
Example orderVolumes_three :
  orderVolumes (sdk:=sdk_v1) Examples.map_range Examples.three_volumes
  = [Some "vol-a"; Some "vol-b"; Some "vol-c"].
Proof. vm_compute. reflexivity. Qed.

(** [Examples.expandStringPtr] is as the theorem on the handler assumes. *)
Lemma expandStringPtr_example_string s p :
  Examples.expandStringPtr (interface_string s) = Some p → p = s.
Proof. simpl. case_decide; congruence. Qed.

(** [privateNICsHandler_attach_detach] on a handler that knows the private
    network "pn-1": attaching "pn-1" again, detaching "pn-2" and detaching
    the empty string make no call. *)
Lemma privateNICsHandler_attach_detach_witness :
  let attach' := attach (sdk:=sdk_v1) None Examples.expandStringPtr
                   Examples.expandID Examples.one_nic_handler in
  let detach' := detach (sdk:=sdk_v1) None Examples.expandStringPtr
                   Examples.expandID Examples.one_nic_handler in
  Examples.expandStringPtr interface_nil = None ∧
  attach' (interface_string "fr-par-1/pn-1") 60000000000%Z tt = (None, tt, []) ∧
  detach' (interface_string "fr-par-1/pn-2") 60000000000%Z tt = (None, tt, []) ∧
  detach' (interface_string "") 60000000000%Z tt = (None, tt, []).
Proof.
  intros attach' detach'.
  pose proof (privateNICsHandler_attach_detach (sdk:=sdk_v1) None
                Examples.expandStringPtr Examples.expandID eq_refl
                expandStringPtr_example_string Examples.one_nic_handler
                60000000000%Z tt) as [(_ & Hpresent & _) (_ & Hempty & Habsent & _)].
  split_and!.
  - reflexivity.
  - apply (Hpresent _ "fr-par-1/pn-1"); [ reflexivity | ]. vm_compute. eauto.
  - apply (Habsent _ "fr-par-1/pn-2"); reflexivity.
  - exact Hempty.
Defined.

(** [validateLocalVolumeSizes_spec] on one volume of 15 GB without a root
    volume, for bounds of 10 GB and 20 GB: the total is 25 GB. *)
Lemma validateLocalVolumeSizes_spec_witness :
  let total := local_volumes_total (sdk:=sdk_v1) Examples.small_volumes
                 10000000000 in
  (∀ A (m : gmap string A), Examples.map_range A m ≡ₚ map_to_list m) ∧
  (0 ≤ total < 2 ^ 64)%Z ∧
  (validateLocalVolumeSizes (sdk:=sdk_v1) Examples.map_range pretty
     Examples.small_volumes Examples.server_type_10_20 "DEV1-S" = None ↔
   (10000000000 ≤ total ≤ 20000000000)%Z).
Proof.
  intros total.
  assert (total = 25000000000%Z) as Etotal by (vm_compute; reflexivity).
  assert (0 ≤ total < 2 ^ 64)%Z as Hfits by (rewrite Etotal; lia).
  split; [ exact map_range_Permutation | split; [ exact Hfits | ] ].
  exact (proj1 (validateLocalVolumeSizes_spec (sdk:=sdk_v1) Examples.map_range
                  map_range_Permutation pretty Examples.small_volumes
                  Examples.server_type_10_20 "DEV1-S" Hfits)).
Defined.

(** C9, as stated, fails when the sizes overflow: two local volumes of
    2^63 and 2^63 + 15 GB bytes add up to 2^64 + 15 GB, which is not within
    10 GB and 20 GB, yet [validateLocalVolumeSizes] returns nil, the total
    having wrapped around to 15 GB. *)
Lemma validateLocalVolumeSizes_counterexample :
  let total := local_volumes_total (sdk:=sdk_v1) Examples.huge_volumes
                 10000000000 in
  total = (2 ^ 64 + 15000000000)%Z ∧
  ¬ (10000000000 ≤ total ≤ 20000000000)%Z ∧
  validateLocalVolumeSizes (sdk:=sdk_v1) Examples.map_range pretty
    Examples.huge_volumes Examples.server_type_10_20 "DEV1-S" = None.
Proof.
  intros total.
  assert (total = (2 ^ 64 + 15000000000)%Z) as Etotal
    by (vm_compute; reflexivity).
  split; [ exact Etotal | split; [ rewrite Etotal; lia | ] ].
  vm_compute. reflexivity.
Qed.

(** ** Instances for the other helpers *)

#[local] Existing Instance sdk_v1.

Lemma map_range_rev_Permutation A (m : gmap string A) :
  MoreExamples.map_range_rev A m ≡ₚ map_to_list m.
Proof. apply reverse_Permutation. Qed.

(** [formatImageLabel_inj] on an identifier without "_". *)
Lemma formatImageLabel_inj_witness :
  ("_"%char ∉ chars "6f1-7e") ∧
  formatImageLabel "6f1-7e" = formatImageLabel "6f1-7e" ∧
  "6f1-7e" = "6f1-7e".
Proof.
  assert ("_"%char ∉ chars "6f1-7e") as H.
  { simpl. rewrite !not_elem_of_cons.
    repeat split; try discriminate. apply not_elem_of_nil. }
  split; [ exact H | split; [ reflexivity | ] ].
  exact (formatImageLabel_inj "6f1-7e" "6f1-7e" H H eq_refl).
Defined.

(** [getSnapshotsFromIds_success] on two snapshots that are found. *)
Lemma getSnapshotsFromIds_success_witness :
  let snapIDs := ["fr-par-1/snap-a"; "fr-par-2/snap-b"] in
  ∃ res log,
    getSnapshotsFromIds MoreExamples.parseZonedID MoreExamples.more_api
      snapIDs tt = (res, None, tt, log) ∧
    ∃ responses,
      length responses = length snapIDs ∧
      res = (if decide (snapIDs = []) then None else Some responses) ∧
      log = zip_with
              (λ snapID r,
                 CallGetSnapshot
                   (getSnapshotsFromIds_request MoreExamples.parseZonedID
                      snapID) (inl r))
              snapIDs responses.
Proof.
  intros snapIDs. eexists _, _. split; [ vm_compute; reflexivity | ].
  exact (getSnapshotsFromIds_success MoreExamples.parseZonedID
           MoreExamples.more_api snapIDs tt _ tt _ eq_refl).
Defined.

(** [getSnapshotsFromIds_first_failure] after one snapshot that is found: an
    identifier without a zone, and a snapshot that is missing. *)
Lemma getSnapshotsFromIds_first_failure_witness :
  let run := getSnapshotsFromIds MoreExamples.parseZonedID
               MoreExamples.more_api in
  ∃ res l1,
    run ["fr-par-1/snap-a"] tt = (res, None, tt, l1) ∧
    run (["fr-par-1/snap-a"] ++ "snap-b" :: ["fr-par-1/snap-c"]) tt
    = (None, Some (errorString "cannot parse ID: snap-b"), tt, l1) ∧
    run (["fr-par-1/snap-a"] ++ "fr-par-1/missing" :: ["fr-par-1/snap-c"]) tt
    = (res,
       Some (errorString
         "extra volumes : could not find snapshot with id fr-par-1/missing"),
       tt,
       l1 ++ [CallGetSnapshot
                {| GetSnapshotRequest.Zone := "fr-par-1";
                   GetSnapshotRequest.SnapshotID := "missing" |}
                (inr (errorString "not found"))]).
Proof.
  intros run. eexists _, _. split; [ vm_compute; reflexivity | ]. split.
  - exact (proj1 (getSnapshotsFromIds_first_failure MoreExamples.parseZonedID
                    MoreExamples.more_api ["fr-par-1/snap-a"] "snap-b"
                    ["fr-par-1/snap-c"] tt _ tt _ eq_refl) _ eq_refl).
  - exact (proj2 (getSnapshotsFromIds_first_failure MoreExamples.parseZonedID
                    MoreExamples.more_api ["fr-par-1/snap-a"]
                    "fr-par-1/missing" ["fr-par-1/snap-c"] tt _ tt _ eq_refl)
             _ tt eq_refl eq_refl).
Defined.

(** [expand_getSnapshotsFromIds] on two snapshots that are found. *)
Lemma expand_getSnapshotsFromIds_witness :
  let snapIDs := ["fr-par-1/snap-a"; "fr-par-2/snap-b"] in
  ∃ res log,
    getSnapshotsFromIds MoreExamples.parseZonedID MoreExamples.more_api
      snapIDs tt = (res, None, tt, log) ∧
    ∃ volTemplates,
      expandInstanceImageExtraVolumesTemplates res = Some volTemplates ∧
      size volTemplates = 2.
Proof.
  intros snapIDs. eexists _, _. split; [ vm_compute; reflexivity | ].
  destruct (expand_getSnapshotsFromIds MoreExamples.parseZonedID
              MoreExamples.more_api snapIDs tt _ tt _ eq_refl)
    as (volTemplates & Hexpand & Hsize & _).
  exists volTemplates. split; [ exact Hexpand | exact Hsize ].
Defined.

(** [flatPrivateNICs_spec] on a handler that knew one network, for a
    listing of three NICs. *)
Lemma flatPrivateNICs_spec_witness :
  ∃ ph' err log,
    flatPrivateNICs MoreExamples.more_api Examples.one_nic_handler tt
    = (ph', err, tt, log) ∧
    ∃ res,
      log = [CallListPrivateNICs
               {| ListPrivateNICsRequest.Zone := "fr-par-1";
                  ListPrivateNICsRequest.ServerID := "srv" |} res] ∧
      match res with
      | inr e => err = Some e ∧ ph' = Examples.one_nic_handler
      | inl r =>
          let nics := ListPrivateNICsResponse.PrivateNics r in
          err = None ∧
          (∀ id, privateNICsMap ph' !! id = last_on_network nics id) ∧
          (∀ id p, privateNICsMap ph' !! id = Some p →
                   PrivateNIC.PrivateNetworkID p = id ∧ p ∈ nics) ∧
          (∀ p, p ∈ nics →
                is_Some (privateNICsMap ph' !! PrivateNIC.PrivateNetworkID p))
      end.
Proof.
  eexists _, _, _. split; [ vm_compute; reflexivity | ].
  exact (flatPrivateNICs_spec MoreExamples.more_api Examples.one_nic_handler
           tt _ _ tt _ eq_refl).
Defined.

(** [newPrivateNICHandler_attach_detach] for a listing of three NICs on the
    networks "pn-1" and "pn-2": attaching "pn-1" and detaching "pn-9" make
    no call. *)
Lemma newPrivateNICHandler_attach_detach_witness :
  let api : API unit := Examples.stateless_api "running" false None in
  ∃ ph,
    newPrivateNICHandler api MoreExamples.more_api "srv" "fr-par-1" tt
    = (ph, None, tt,
       [CallListPrivateNICs
          {| ListPrivateNICsRequest.Zone := "fr-par-1";
             ListPrivateNICsRequest.ServerID := "srv" |}
          (inl {| ListPrivateNICsResponse.PrivateNics :=
                    MoreExamples.nics |})]) ∧
    attach None Examples.expandStringPtr Examples.expandID ph
      (interface_string "fr-par-1/pn-1") 60000000000%Z tt = (None, tt, []) ∧
    detach None Examples.expandStringPtr Examples.expandID ph
      (interface_string "fr-par-1/pn-9") 60000000000%Z tt = (None, tt, []).
Proof.
  intros api. eexists. split; [ vm_compute; reflexivity | ].
  pose proof (newPrivateNICHandler_attach_detach None Examples.expandStringPtr
                Examples.expandID MoreExamples.more_api api "srv" "fr-par-1"
                tt _ tt
                {| ListPrivateNICsResponse.PrivateNics := MoreExamples.nics |}
                60000000000%Z eq_refl) as (Hattach & Hdetach & _).
  split.
  - apply (Hattach _ "fr-par-1/pn-1" MoreExamples.nic_1);
      [ reflexivity | | reflexivity ].
    simpl. unfold MoreExamples.nics. rewrite !elem_of_cons. by left.
  - apply (Hdetach _ "fr-par-1/pn-9"); [ reflexivity | ].
    intros p. simpl. unfold MoreExamples.nics.
    rewrite !elem_of_cons, elem_of_nil.
    intros [-> | [-> | [-> | []]]]; discriminate.
Defined.

(** [get_after_flatPrivateNICs] for the key "fr-par-1/pn-1". *)
Lemma get_after_flatPrivateNICs_witness :
  ∃ ph',
    flatPrivateNICs MoreExamples.more_api Examples.one_nic_handler tt
    = (ph', None, tt,
       [CallListPrivateNICs
          {| ListPrivateNICsRequest.Zone := "fr-par-1";
             ListPrivateNICsRequest.ServerID := "srv" |}
          (inl {| ListPrivateNICsResponse.PrivateNics :=
                    MoreExamples.nics |})]) ∧
    MoreExamples.parseZonedID "fr-par-1/pn-1" = ("fr-par-1", "pn-1", None) ∧
    (is_Some (get MoreExamples.parseZonedID (λ state, state) ph'
                "fr-par-1/pn-1").1 ↔
     ∃ p, p ∈ MoreExamples.nics ∧ PrivateNIC.PrivateNetworkID p = "pn-1").
Proof.
  eexists. split; [ vm_compute; reflexivity | ].
  split; [ reflexivity | ].
  exact (proj1 (get_after_flatPrivateNICs MoreExamples.parseZonedID
                  (λ state, state) MoreExamples.more_api
                  Examples.one_nic_handler tt _ tt
                  {| ListPrivateNICsResponse.PrivateNics :=
                       MoreExamples.nics |}
                  "fr-par-1/pn-1" "fr-par-1" "pn-1" eq_refl eq_refl)).
Defined.

(** [preparePrivateNIC_first_failure] after one entry that succeeds: an
    entry without "pn_id", and a network that is missing. *)
Lemma preparePrivateNIC_first_failure_witness :
  let run := preparePrivateNIC Examples.expandID MoreExamples.vpc_api
               "fr-par-1" "srv" in
  let entry := MoreExamples.nic_entry "fr-par-1/pn-1" in
  ∃ res l1,
    run (Some [entry]) tt = (Returns (res, None), tt, l1) ∧
    run (Some ([entry] ++ ∅ :: [entry])) tt = (Panics, tt, l1) ∧
    run (Some ([entry] ++ MoreExamples.nic_entry "fr-par-1/missing"
                 :: [entry])) tt
    = (Returns (None, Some (errorString "no such network")), tt,
       l1 ++ [CallGetPrivateNetwork
                {| vpc.GetPrivateNetworkRequest.PrivateNetworkID := "missing";
                   vpc.GetPrivateNetworkRequest.Zone := "fr-par-1" |}
                (inr (errorString "no such network"))]).
Proof.
  intros run entry. eexists _, _. split; [ vm_compute; reflexivity | ]. split.
  - exact (proj1 (preparePrivateNIC_first_failure Examples.expandID
                    MoreExamples.vpc_api "fr-par-1" "srv" [entry] ∅ [entry]
                    tt _ tt _ eq_refl) eq_refl).
  - exact (proj2 (preparePrivateNIC_first_failure Examples.expandID
                    MoreExamples.vpc_api "fr-par-1" "srv" [entry]
                    (MoreExamples.nic_entry "fr-par-1/missing") [entry]
                    tt _ tt _ eq_refl)
             "fr-par-1/missing" _ tt eq_refl eq_refl).
Defined.

(** [getServerType_spec] for a commercial type that the service knows. *)
Lemma getServerType_spec_witness :
  let req := {| GetServerTypeRequest.Zone := "fr-par-1";
                GetServerTypeRequest.Name := "DEV1-S" |} in
  ∃ serverType log,
    getServerType MoreExamples.Error MoreExamples.more_api "fr-par-1" "DEV1-S"
      tt = (serverType, tt, log) ∧
    ∃ res warnings,
      GetServerType MoreExamples.more_api req tt = (res, tt) ∧
      log = CallGetServerType req res :: warnings ∧
      (is_Some serverType ↔ warnings = []).
Proof.
  intros req. eexists _, _. split; [ vm_compute; reflexivity | ].
  destruct (getServerType_spec MoreExamples.Error MoreExamples.more_api
              "fr-par-1" "DEV1-S" tt _ tt _ eq_refl)
    as (res & warnings & Hcall & Hlog & _ & _ & Hsome & _).
  exists res, warnings. split; [ exact Hcall | ].
  split; [ exact Hlog | exact Hsome ].
Defined.


(** [reachState_last_action] on a running server that is stopped. *)
Lemma reachState_last_action_witness :
  let api : API unit := Examples.stateless_api "running" false None in
  distinct_states ∧
  "running" ∈ stable_states ∧ "stopped" ∈ stable_states ∧
  ∃ log,
    reachState None api "fr-par-1" "srv" "stopped" tt = (None, tt, log) ∧
    last (power_actions log)
    = Some (reachState_actionRequest None "fr-par-1" "srv" "poweroff") ∧
    1 ≤ length (power_actions log) ≤ 2.
Proof.
  intros api. split; [ exact sdk_v1_distinct | ].
  assert ("running" ∈ stable_states) as Hfrom.
  { unfold stable_states. simpl. rewrite !elem_of_cons. auto. }
  assert ("stopped" ∈ stable_states) as Hto.
  { unfold stable_states. simpl. rewrite !elem_of_cons. auto. }
  split; [ exact Hfrom | ]. split; [ exact Hto | ].
  eexists. split; [ vm_compute; reflexivity | ].
  refine (reachState_last_action None api "fr-par-1" "srv" sdk_v1_distinct
            "stopped" tt _ tt tt _ eq_refl Hfrom Hto _ eq_refl).
  discriminate.
Defined.

(** [retryUpdateReverseDNS_last_call] on a run in which the reverse name
    never resolves and the timeout elapses after two rounds. *)
Lemma retryUpdateReverseDNS_last_call_witness :
  let api : API (nat * nat) :=
    Examples.stateless_api "running" false (Some Examples.reverse_error) in
  ∃ log,
    retryUpdateReverseDNS Examples.countdown api "req" 3 12000000000%Z (2, 0)
    = (Some (Some Examples.reverse_error), (0, 4), log) ∧
    ∃ res, last log = Some (EvUpdateIP "req" res) ∧
           Some Examples.reverse_error = res.2.
Proof.
  intros api. eexists. split; [ vm_compute; reflexivity | ].
  exact (proj1 (retryUpdateReverseDNS_last_call Examples.countdown api "req" 3
                  12000000000%Z (2, 0) _ (0, 4) _ eq_refl)).
Defined.

(** [attach_creates_then_waits] on a handler that does not know "pn-2",
    with a service that creates no NIC. *)
Lemma attach_creates_then_waits_witness :
  ∃ err log,
    attach None Examples.expandStringPtr Examples.expandID
      Examples.one_nic_handler (interface_string "fr-par-1/pn-2")
      60000000000%Z tt = (err, tt, log) ∧
    attach_log None Examples.one_nic_handler 60000000000%Z "pn-2" log err.
Proof.
  eexists _, _. split; [ vm_compute; reflexivity | ].
  exact (attach_creates_then_waits None Examples.expandStringPtr
           Examples.expandID Examples.one_nic_handler 60000000000%Z
           (interface_string "fr-par-1/pn-2") "fr-par-1/pn-2" tt _ tt _
           eq_refl eq_refl eq_refl).
Defined.

(** [orderVolumes_range_independent] for the order of
    [Examples.map_range] and the same order backwards. *)
Lemma orderVolumes_range_independent_witness :
  (∀ A (m : gmap string A), Examples.map_range A m ≡ₚ map_to_list m) ∧
  (∀ A (m : gmap string A), MoreExamples.map_range_rev A m ≡ₚ map_to_list m) ∧
  orderVolumes Examples.map_range Examples.three_volumes
  = orderVolumes MoreExamples.map_range_rev Examples.three_volumes.
Proof.
  split; [ exact map_range_Permutation | ].
  split; [ exact map_range_rev_Permutation | ].
  exact (proj1 (orderVolumes_range_independent Examples.map_range
                  MoreExamples.map_range_rev map_range_Permutation
                  map_range_rev_Permutation) Examples.three_volumes).
Defined.

(** [orderVolumes_insert_last]: a volume added under "10" to the volumes
    under "0" and "1". *)
Lemma orderVolumes_insert_last_witness :
  (∀ A (m : gmap string A), Examples.map_range A m ≡ₚ map_to_list m) ∧
  (∀ k', is_Some (MoreExamples.two_volumes !! k') → String.le k' "10") ∧
  orderVolumes Examples.map_range
    (<["10" := Some "vol-c"]> MoreExamples.two_volumes)
  = orderVolumes Examples.map_range MoreExamples.two_volumes ++ [Some "vol-c"].
Proof.
  assert (∀ k', is_Some (MoreExamples.two_volumes !! k') → String.le k' "10")
    as Hle.
  { intros k' [x Hx]. unfold MoreExamples.two_volumes in Hx.
    apply lookup_insert_Some in Hx as [[<- _] | [_ Hx]];
      [ vm_compute; exact I | ].
    apply lookup_singleton_Some in Hx as [<- _]. vm_compute. exact I. }
  split; [ exact map_range_Permutation | ]. split; [ exact Hle | ].
  exact (proj1 (orderVolumes_insert_last Examples.map_range
                  map_range_Permutation)
           MoreExamples.two_volumes "10" (Some "vol-c") eq_refl Hle).
Defined.

(** [sanitizeVolumeMap_idempotent] for the two orders of [range]. *)
Lemma sanitizeVolumeMap_idempotent_witness :
  (∀ A (m : gmap string A), Examples.map_range A m ≡ₚ map_to_list m) ∧
  (∀ A (m : gmap string A), MoreExamples.map_range_rev A m ≡ₚ map_to_list m) ∧
  sanitizeVolumeMap MoreExamples.map_range_rev Examples.huge_volumes
  = sanitizeVolumeMap Examples.map_range Examples.huge_volumes ∧
  sanitizeVolumeMap MoreExamples.map_range_rev
    (sanitizeVolumeMap Examples.map_range Examples.huge_volumes)
  = sanitizeVolumeMap Examples.map_range Examples.huge_volumes.
Proof.
  split; [ exact map_range_Permutation | ].
  split; [ exact map_range_rev_Permutation | ].
  exact (sanitizeVolumeMap_idempotent Examples.map_range
           MoreExamples.map_range_rev map_range_Permutation
           map_range_rev_Permutation Examples.huge_volumes).
Defined.

(** [validateLocalVolumeSizes_range_independent] for the two orders of
    [range]. *)
Lemma validateLocalVolumeSizes_range_independent_witness :
  (∀ A (m : gmap string A), Examples.map_range A m ≡ₚ map_to_list m) ∧
  (∀ A (m : gmap string A), MoreExamples.map_range_rev A m ≡ₚ map_to_list m) ∧
  validateLocalVolumeSizes Examples.map_range pretty Examples.huge_volumes
    Examples.server_type_10_20 "DEV1-S"
  = validateLocalVolumeSizes MoreExamples.map_range_rev pretty
      Examples.huge_volumes Examples.server_type_10_20 "DEV1-S".
Proof.
  split; [ exact map_range_Permutation | ].
  split; [ exact map_range_rev_Permutation | ].
  exact (validateLocalVolumeSizes_range_independent Examples.map_range
           MoreExamples.map_range_rev map_range_Permutation
           map_range_rev_Permutation pretty Examples.huge_volumes
           Examples.server_type_10_20 "DEV1-S").
Defined.

(** [validateLocalVolumeSizes_ignores_other_volumes]: a block volume of
    50 GB added under "2" beside a local volume of 15 GB. *)
Lemma validateLocalVolumeSizes_ignores_other_volumes_witness :
  (∀ A (m : gmap string A), Examples.map_range A m ≡ₚ map_to_list m) ∧
  Examples.small_volumes !! "2" = None ∧
  VolumeServerTemplate.VolumeType MoreExamples.block_volume
    ≠ VolumeVolumeTypeLSSD ∧
  validateLocalVolumeSizes Examples.map_range pretty
    (<["2" := MoreExamples.block_volume]> Examples.small_volumes)
    Examples.server_type_10_20 "DEV1-S"
  = validateLocalVolumeSizes Examples.map_range pretty Examples.small_volumes
      Examples.server_type_10_20 "DEV1-S".
Proof.
  assert (VolumeServerTemplate.VolumeType MoreExamples.block_volume
          ≠ VolumeVolumeTypeLSSD) as Htype by discriminate.
  split; [ exact map_range_Permutation | ]. split; [ reflexivity | ].
  split; [ exact Htype | ].
  refine (validateLocalVolumeSizes_ignores_other_volumes Examples.map_range
            map_range_Permutation pretty Examples.small_volumes "2"
            MoreExamples.block_volume Examples.server_type_10_20 "DEV1-S"
            eq_refl _ (or_introl Htype)).
  discriminate.
Defined.
